(** * mrifit: DCE-MRI signal, enhancement and concentration conversions

    A shallow embedding of [src/dce/dce_fit.py] (and of the water-exchange
    decompositions of [src/dce/r_to_s.py]) together with the properties
    that the specification states about them.

    Conventions of the embedding.
    - A float is an [fnum]: a rational, or one of the IEEE special values
      [+inf], [-inf], [nan]; there is one zero (taken as [+0.0]).  The
      operations [fadd], [fsub], [fmul] and [fdiv] return the exact result;
      the properties stated over them are those that depend on comparisons,
      on [nan] and the infinities, on shapes and on control flow, not on
      the digits of a result.  Where the digits matter -- the sum of the
      volume fractions -- the arithmetic is the rounded one of [rounded],
      in which every operation is followed by a rounding to the format;
      [binary64] is the rounding of Python's floats.
    - A Python exception is a value of [exn]; a computation that may raise
      one has type [result A].
    - A value that crosses the boundary to a pluggable model is an
      [npval]: a Python float, a NumPy scalar or a one-dimensional array.
      Python float division raises [ZeroDivisionError] on a zero divisor,
      NumPy division returns [inf] or [nan] there.
    - Scalar arguments ([hct], [k], the R10 rates) and the values of a PK
      parameter dict are Python floats, as in the docstrings; time series
      are one-dimensional float arrays.
    - The pluggable models (PK model, relaxation model, water-exchange
      model, signal model) are parameters: records of functions, taken to
      return normally.  SciPy's [root] and [minimize] are parameters too;
      they may raise, since the function they are given may. *)

From Stdlib Require Import QArith Qcanon Qround Qabs Qpower ZArith Lia Lqa.
From Stdlib Require Import FunctionalExtensionality.
From stdpp Require Import base numbers strings list gmap.

Open Scope Qc_scope.

(** Closed goals over the embedding are settled by evaluation. *)
Ltac by_eval := apply (bool_decide_unpack _); vm_compute; exact I.

(** ** Floats *)

Inductive fnum : Type :=
  | Fin (q : Qc)
  | PInf
  | NInf
  | NaN.

#[global] Instance fnum_eq_dec : EqDecision fnum.
Proof. solve_decision. Defined.

Definition is_finite (x : fnum) : Prop :=
  match x with Fin _ => True | _ => False end.

Definition is_nan (x : fnum) : Prop := x = NaN.

#[global] Instance is_finite_dec x : Decision (is_finite x).
Proof. destruct x; simpl; apply _. Defined.

Definition fneg (x : fnum) : fnum :=
  match x with
  | Fin q => Fin (- q)
  | PInf => NInf
  | NInf => PInf
  | NaN => NaN
  end.

Definition fadd (x y : fnum) : fnum :=
  match x, y with
  | NaN, _ | _, NaN => NaN
  | Fin a, Fin b => Fin (a + b)
  | PInf, NInf | NInf, PInf => NaN
  | PInf, _ | _, PInf => PInf
  | NInf, _ | _, NInf => NInf
  end.

Definition fsub (x y : fnum) : fnum := fadd x (fneg y).

(** The infinity that has the sign of [a] times [s] (for [a <> 0]). *)
Definition signed_inf (a : Qc) (positive : bool) : fnum :=
  if bool_decide (0 < a)
  then (if positive then PInf else NInf)
  else (if positive then NInf else PInf).

Definition fmul (x y : fnum) : fnum :=
  match x, y with
  | NaN, _ | _, NaN => NaN
  | Fin a, Fin b => Fin (a * b)
  | Fin a, PInf | PInf, Fin a =>
      if bool_decide (a = 0) then NaN else signed_inf a true
  | Fin a, NInf | NInf, Fin a =>
      if bool_decide (a = 0) then NaN else signed_inf a false
  | PInf, PInf | NInf, NInf => PInf
  | PInf, NInf | NInf, PInf => NInf
  end.

(** IEEE division, as NumPy performs it: a zero divisor gives an infinity,
    or [nan] for [0/0]; no exception. *)
Definition fdiv (x y : fnum) : fnum :=
  match x, y with
  | NaN, _ | _, NaN => NaN
  | Fin a, Fin b =>
      if bool_decide (b = 0)
      then (if bool_decide (a = 0) then NaN else signed_inf a true)
      else Fin (a / b)
  | Fin _, (PInf | NInf) => Fin 0
  | PInf, Fin b => if bool_decide (b < 0) then NInf else PInf
  | NInf, Fin b => if bool_decide (b < 0) then PInf else NInf
  | (PInf | NInf), (PInf | NInf) => NaN
  end.

(** Python's [<], [<=] and [==] on floats: every comparison with [nan]
    is false. *)
Definition flt (x y : fnum) : bool :=
  match x, y with
  | NaN, _ | _, NaN => false
  | Fin a, Fin b => bool_decide (a < b)
  | _, NInf => false
  | NInf, _ => true
  | PInf, _ => false
  | _, PInf => true
  end.

Definition feqb (x y : fnum) : bool :=
  match x, y with
  | NaN, _ | _, NaN => false
  | _, _ => bool_decide (x = y)
  end.

Definition fle (x y : fnum) : bool := flt x y || feqb x y.

Definition fzero : fnum := Fin 0.
Definition fone : fnum := Fin 1.
Definition fhundred : fnum := Fin (Q2Qc 100).

(** ** Exceptions *)

Inductive exn : Type :=
  | ZeroDivisionError
  | IndexError
  | ValueError
  | AttributeError
  | TypeError
  | AssertionError (msg : string).

#[global] Instance exn_eq_dec : EqDecision exn.
Proof. solve_decision. Defined.

Inductive result (A : Type) : Type :=
  | Ok (a : A)
  | Raise (e : exn).
Arguments Ok {A} a.
Arguments Raise {A} e.

#[global] Instance result_eq_dec `{EqDecision A} : EqDecision (result A).
Proof. solve_decision. Defined.

#[global] Instance result_ret : MRet result := @Ok.
#[global] Instance result_bind : MBind result := λ A B f m,
  match m with
  | Ok a => f a
  | Raise e => Raise e
  end.
#[global] Instance result_fmap : FMap result := λ A B f m,
  match m with
  | Ok a => Ok (f a)
  | Raise e => Raise e
  end.

Definition raises {A} (m : result A) : Prop :=
  match m with Ok _ => False | Raise _ => True end.

(** [x / y] on two Python floats. *)
Definition py_div (x y : fnum) : result fnum :=
  if feqb y fzero then Raise ZeroDivisionError else Ok (fdiv x y).

(** ** NumPy values *)

Inductive npval : Type :=
  | PyFloat (x : fnum)
  | NpScalar (x : fnum)
  | NpArray (xs : list fnum).

#[global] Instance npval_eq_dec : EqDecision npval.
Proof. solve_decision. Defined.

(** Broadcasting of two one-dimensional arrays: equal lengths, or one of
    them of length one; any other pair of shapes raises. *)
Definition broadcast (f : fnum → fnum → fnum) (xs ys : list fnum)
  : result (list fnum) :=
  if bool_decide (length xs = length ys) then Ok (zip_with f xs ys)
  else match xs, ys with
       | [x], _ => Ok (map (f x) ys)
       | _, [y] => Ok (map (λ x, f x y) xs)
       | _, _ => Raise ValueError
       end.

Definition np_binop (f : fnum → fnum → fnum) (a b : npval) : result npval :=
  match a, b with
  | PyFloat x, PyFloat y => Ok (PyFloat (f x y))
  | PyFloat x, NpScalar y
  | NpScalar x, PyFloat y
  | NpScalar x, NpScalar y => Ok (NpScalar (f x y))
  | PyFloat x, NpArray ys | NpScalar x, NpArray ys => Ok (NpArray (map (f x) ys))
  | NpArray xs, PyFloat y | NpArray xs, NpScalar y =>
      Ok (NpArray (map (λ x, f x y) xs))
  | NpArray xs, NpArray ys => NpArray <$> broadcast f xs ys
  end.

Definition np_sub := np_binop fsub.
Definition np_mul := np_binop fmul.

Definition np_div (a b : npval) : result npval :=
  match a, b with
  | PyFloat x, PyFloat y => PyFloat <$> py_div x y
  | _, _ => np_binop fdiv a b
  end.

(** [a ** 2] *)
Definition np_square (a : npval) : npval :=
  match a with
  | PyFloat x => PyFloat (fmul x x)
  | NpScalar x => NpScalar (fmul x x)
  | NpArray xs => NpArray (map (λ x, fmul x x) xs)
  end.

(** [np.sum(a)]: the sum of all elements, a NumPy scalar. *)
Definition fsum (xs : list fnum) : fnum := foldl fadd fzero xs.

Definition np_sum (a : npval) : fnum :=
  match a with
  | PyFloat x | NpScalar x => x
  | NpArray xs => fsum xs
  end.

(** [np.mean(xs)] of an array: the sum divided by the count; on an empty
    array this is [0.0/0], that is [nan] (NumPy only warns). *)
Definition np_mean (xs : list fnum) : fnum :=
  fdiv (fsum xs) (Fin (Qc_of_Z (Z.of_nat (length xs)))).

(** [s[i]] for an integer [i]: negative indices count from the end. *)
Definition np_index (s : list fnum) (i : Z) : result fnum :=
  let n := Z.of_nat (length s) in
  let j := if bool_decide (i < 0)%Z then (i + n)%Z else i in
  if bool_decide (0 ≤ j < n)%Z
  then match s !! Z.to_nat j with
       | Some x => Ok x
       | None => Raise IndexError
       end
  else Raise IndexError.

(** [s[idx]] for a list of integers [idx]. *)
Definition np_take (s : list fnum) (idx : list Z) : result (list fnum) :=
  mapM (np_index s) idx.

(** ** [sig_to_enh] *)

Definition sig_to_enh (s : list fnum) (base_idx : list Z) : result npval :=
  base ← np_take s base_idx;
  let s_pre := NpScalar (np_mean base) in
  d ← np_sub (NpArray s) s_pre;
  r ← np_div d s_pre;
  np_mul (PyFloat fhundred) r.

(** ** The pluggable models *)

(** Concentration-relaxation model: [R1(R10, C)] and [R2(R20, C)]. *)
Module c_to_r_model.
Record t : Type := mk {
  R1 : fnum → npval → npval;
  R2 : fnum → npval → npval
}.
End c_to_r_model.

(** Relaxation-signal model: [R_to_s(s0, R1, R2, R2s, k)].  [R2] and [R2s]
    are optional: [pkp_to_enh] leaves them to the model's defaults. *)
Module signal_model.
Record t : Type := mk {
  R_to_s : fnum → npval → option npval → option npval → fnum → npval
}.
End signal_model.

(** The three tissue compartments: blood, extravascular-extracellular,
    intracellular; the dicts with keys ['b'], ['e'], ['i']. *)
Module compartment.
Record t (A : Type) : Type := mk { b : A; e : A; i : A }.
Arguments mk {A} b e i.
Arguments b {A} _.
Arguments e {A} _.
Arguments i {A} _.
Definition map {A B} (f : A → B) (c : t A) : t B :=
  mk (f (b c)) (f (e c)) (f (i c)).
End compartment.

#[global] Instance compartment_eq_dec `{EqDecision A} : EqDecision (compartment.t A).
Proof. solve_decision. Defined.

(** Water-exchange model: [R1_components(p, R1)] returns the relaxation
    components and their population weights. *)
Module water_ex_model.
Record t : Type := mk {
  R1_components :
    compartment.t fnum → compartment.t npval → list npval * list npval
}.
End water_ex_model.

(** How [pk_model.conc] is called: [conc( *x )] or [conc( **pk_pars )]. *)
Inductive conc_args : Type :=
  | Positional (x : list fnum)
  | Keyword (pk_pars : gmap string fnum).

(** Pharmacokinetic model; [conc] returns [(C_t, C_cp, C_e)]. *)
Module pk_model.
Record t (C : Type) : Type := mk {
  conc : conc_args → npval * npval * npval;
  pkp_dict : list fnum → gmap string fnum;
  pkp_array : gmap string fnum → list fnum;
  typical_vals : list fnum;
  constraints : C
}.
Arguments mk {C}.
Arguments conc {C}.
Arguments pkp_dict {C}.
Arguments pkp_array {C}.
Arguments typical_vals {C}.
Arguments constraints {C}.
End pk_model.

(** ** [conc_to_enh] *)

Definition conc_to_enh (C_t : npval) (k R10 : fnum)
    (c_to_r_model : c_to_r_model.t) (signal_model : signal_model.t)
  : result npval :=
  let R1 := c_to_r_model.R1 c_to_r_model R10 C_t in
  let R2 := c_to_r_model.R2 c_to_r_model fzero C_t in
  let s_pre := signal_model.R_to_s signal_model fone (PyFloat R10)
                 (Some (PyFloat fzero)) (Some (PyFloat fzero)) k in
  let s_post := signal_model.R_to_s signal_model fone R1 (Some R2) (Some R2) k in
  d ← np_sub s_post s_pre;
  r ← np_div d s_pre;
  np_mul (PyFloat fhundred) r.

(** ** [enh_to_conc] *)

(** What [scipy.optimize.root] returns, as far as the code reads it. *)
Module RootResult.
Record t : Type := mk { x : list fnum; success : bool }.
End RootResult.

#[global] Instance RootResult_eq_dec : EqDecision RootResult.t.
Proof. solve_decision. Defined.

Record root_options : Type := { maxfev : Z; xtol : fnum }.

(** [scipy.optimize.root(fun, x0, method, options)] *)
Definition root_solver : Type :=
  (npval → result npval) → fnum → string → root_options → result RootResult.t.

(** Python's built-in [min] on a non-empty sequence keeps the first
    element that no later element is [<] than.  The position of that
    element is returned with it: it stands for the identity of the object. *)
Fixpoint min_pos_from (best_i : nat) (best : fnum) (i : nat) (xs : list fnum)
  : nat * fnum :=
  match xs with
  | [] => (best_i, best)
  | x :: xs' =>
      if flt x best then min_pos_from i x (S i) xs'
      else min_pos_from best_i best (S i) xs'
  end.

Definition py_min_pos (xs : list fnum) : result (nat * fnum) :=
  match xs with
  | [] => Raise ValueError
  | x :: xs' => Ok (min_pos_from 0 x 1 xs')
  end.

Definition py_min (xs : list fnum) : result fnum := snd <$> py_min_pos xs.

Definition root_failed : string := "Enh-to-conc root finding failed.".

Definition xtol_1e_7 : fnum := Fin (Q2Qc (1 # 10000000)).

Section enh_to_conc.
Variable root : root_solver.
Variables (k R10 : fnum).
Variable c_to_r_model : c_to_r_model.t.
Variable signal_model : signal_model.t.

(** The function whose root is sought for the sample [e]. *)
Definition enh_residual (e : fnum) (c : npval) : result npval :=
  enh ← conc_to_enh c k R10 c_to_r_model signal_model;
  np_sub (NpScalar e) enh.

Definition enh_to_conc_single (e : fnum) : result fnum :=
  res ← root (enh_residual e) fzero "hybr"
           {| maxfev := 1000; xtol := xtol_1e_7 |};
  if RootResult.success res then py_min (RootResult.x res)
  else Raise (AssertionError root_failed).

Definition enh_to_conc (enh : list fnum) : result npval :=
  NpArray <$> mapM enh_to_conc_single enh.
End enh_to_conc.

(** ** [volume_fractions] *)

Definition volume_fractions (pk_pars : gmap string fnum) (hct : fnum)
  : result (compartment.t fnum) :=
  vb ← match pk_pars !! "vp" with
       | Some vp => py_div vp (fsub fone hct)
       | None => Ok fzero
       end;
  Ok match pk_pars !! "ve" with
     | Some ve => compartment.mk vb ve (fsub (fsub fone vb) ve)
     | None => compartment.mk vb (fsub fone vb) fzero
     end.

(** ** Rounded arithmetic

    The operations on [fnum] above return the exact rational result.  A
    binary floating-point operation returns that result rounded to the
    format.  In [rounded] the rounding is a parameter [rnd], from the exact
    finite result to the float returned, which is an infinity on overflow;
    special values pass through.  [rounded.volume_fractions] is
    [volume_fractions] with every operation rounded. *)

Module rounded.
Section rounded.
Variable rnd : Qc → fnum.

Definition fl (x : fnum) : fnum :=
  match x with
  | Fin q => rnd q
  | _ => x
  end.

Definition add (x y : fnum) : fnum := fl (fadd x y).
Definition sub (x y : fnum) : fnum := fl (fsub x y).
Definition div (x y : fnum) : fnum := fl (fdiv x y).

Definition py_div (x y : fnum) : result fnum :=
  if feqb y fzero then Raise ZeroDivisionError else Ok (div x y).

Definition volume_fractions (pk_pars : gmap string fnum) (hct : fnum)
  : result (compartment.t fnum) :=
  vb ← match pk_pars !! "vp" with
       | Some vp => py_div vp (sub fone hct)
       | None => Ok fzero
       end;
  Ok match pk_pars !! "ve" with
     | Some ve => compartment.mk vb ve (sub (sub fone vb) ve)
     | None => compartment.mk vb (sub fone vb) fzero
     end.
End rounded.
End rounded.

(** What is known of a rounding to nearest: a result of magnitude at most
    [hi], the largest finite float, is returned with a relative error of at
    most [u], the unit roundoff, and an absolute error of at most [eta] on
    underflow; a result beyond [hi] is returned as [hi] or as an infinity
    of its sign.  For binary64, [u] is [2^-53], [eta] is [2^-1075] and
    [hi] is [(2 - 2^-52) * 2^1023]. *)
Definition rounds_to_nearest (rnd : Qc → fnum) (u eta hi : Qc) : Prop :=
  (∀ q, - hi ≤ q → q ≤ hi →
     ∃ r d t, rnd q = Fin r ∧ r = q * (1 + d) + t
              ∧ - u ≤ d ∧ d ≤ u ∧ - eta ≤ t ∧ t ≤ eta)
  ∧ (∀ q, q < - hi → fle (rnd q) (Fin (- hi)) = true)
  ∧ (∀ q, hi < q → fle (Fin hi) (rnd q) = true).

(** ** The rounding of binary64

    Round to nearest, ties to even, in the format of Python's floats: 53
    significant bits, exponents of the last place from [-1074] (the
    subnormal numbers) to [971], and an infinity for a rounded value of
    magnitude [2^1024] or more. *)

Definition pow2 (z : Z) : Q := Qpower 2 z.

(** The integer [e] with [2^e <= x < 2^(e+1)], for [x > 0]. *)
Definition floor_log2 (x : Q) : Z :=
  let k := (Z.log2 (Qnum x) - Z.log2 (Zpos (Qden x)))%Z in
  if Qle_bool (pow2 k) x then k else (k - 1)%Z.

Definition round_half_even (m : Q) : Z :=
  let f := Qfloor m in
  match Qcompare (m - inject_Z f)%Q (1 # 2)%Q with
  | Lt => f
  | Gt => (f + 1)%Z
  | Eq => if Z.even f then f else (f + 1)%Z
  end.

(** The exponent of the unit in the last place of the float nearest [x]. *)
Definition binary64_exponent (x : Q) : Z :=
  Z.max (floor_log2 (Qabs x) - 52) (-1074).

Definition binary64_value (x : Q) : Q :=
  (inject_Z (round_half_even (x / pow2 (binary64_exponent x)))
   * pow2 (binary64_exponent x))%Q.

Definition binary64 (q : Qc) : fnum :=
  if Qeq_bool (this q) 0%Q then Fin q
  else
    let r := binary64_value (this q) in
    if Qle_bool (pow2 1024) (Qabs r)
    then (if Qle_bool 0%Q (this q) then PInf else NInf)
    else Fin (Q2Qc r).

(** The largest finite float, the unit roundoff and half the smallest
    subnormal number. *)
Definition hi64 : Q := (inject_Z (2 ^ 53 - 1) * pow2 971)%Q.
Definition u64 : Q := pow2 (-53).
Definition eta64 : Q := pow2 (-1075).

(** ** [pkp_to_enh] *)

(** [np.zeros(a.shape)] *)
Definition np_zeros_like (a : npval) : result npval :=
  match a with
  | PyFloat _ => Raise AttributeError
  | NpScalar _ => Ok (NpScalar fzero)
  | NpArray xs => Ok (NpArray (replicate (length xs) fzero))
  end.

(** [np.sum(rows, 0)] of a Python list of values: the rows are stacked,
    so they must have one shape, and are added up element by element. *)
Definition add_row (acc row : npval) : result npval :=
  match acc, row with
  | NpScalar a, PyFloat x | NpScalar a, NpScalar x => Ok (NpScalar (fadd a x))
  | NpArray xs, NpArray ys =>
      if bool_decide (length xs = length ys)
      then Ok (NpArray (zip_with fadd xs ys))
      else Raise ValueError
  | _, _ => Raise ValueError
  end.

Fixpoint add_rows (acc : npval) (rows : list npval) : result npval :=
  match rows with
  | [] => Ok acc
  | row :: rows' => acc' ← add_row acc row; add_rows acc' rows'
  end.

Definition np_sum_axis0 (rows : list npval) : result npval :=
  match rows with
  | [] => Ok (NpScalar fzero)
  | PyFloat x :: rows' | NpScalar x :: rows' => add_rows (NpScalar x) rows'
  | NpArray xs :: rows' => add_rows (NpArray xs) rows'
  end.

(** Pre-contrast R1 of each compartment. *)
Definition compartment_R10 (p : compartment.t fnum) (R10_tissue R10_blood : fnum)
  : result (compartment.t fnum) :=
  R10_extravasc ←
    py_div (fsub R10_tissue (fmul (compartment.b p) R10_blood))
           (fsub fone (compartment.b p));
  Ok (compartment.mk R10_blood R10_extravasc R10_extravasc).

(** Concentration in each compartment, from the PK model's plasma and
    extravascular series.  (The dict of the source also stores [C_t],
    which is not read again.) *)
Definition compartment_conc (v : compartment.t fnum) (C_cp C_e : npval)
  : result (compartment.t npval) :=
  c_b ← np_div C_cp (PyFloat (compartment.b v));
  c_e ← np_div C_e (PyFloat (compartment.e v));
  c_i ← np_zeros_like C_e;
  Ok (compartment.mk c_b c_e c_i).

(** Post-contrast R1 of each compartment. *)
Definition compartment_R1 (c_to_r_model : c_to_r_model.t)
    (R10 : compartment.t fnum) (c : compartment.t npval) : compartment.t npval :=
  compartment.mk
    (c_to_r_model.R1 c_to_r_model (compartment.b R10) (compartment.b c))
    (c_to_r_model.R1 c_to_r_model (compartment.e R10) (compartment.e c))
    (c_to_r_model.R1 c_to_r_model (compartment.i R10) (compartment.i c)).

(** [np.sum([p_c * R_to_s(1, components[i], k=k)
             for i, p_c in enumerate(p_components)], 0)] *)
Definition component_signal (signal_model : signal_model.t) (k : fnum)
    (components : list npval) (ip : nat * npval) : result npval :=
  match components !! ip.1 with
  | Some r =>
      np_mul ip.2 (signal_model.R_to_s signal_model fone r None None k)
  | None => Raise IndexError
  end.

Definition weighted_signal (signal_model : signal_model.t) (k : fnum)
    (components p_components : list npval) : result npval :=
  rows ← mapM (component_signal signal_model k components)
              (imap pair p_components);
  np_sum_axis0 rows.

Definition pkp_to_enh {C} (pk_pars : gmap string fnum)
    (hct k R10_tissue R10_blood : fnum)
    (pk_model : pk_model.t C) (c_to_r_model : c_to_r_model.t)
    (water_ex_model : water_ex_model.t) (signal_model : signal_model.t)
  : result npval :=
  v ← volume_fractions pk_pars hct;
  let p := v in
  R10 ← compartment_R10 p R10_tissue R10_blood;
  let '(R10_components, p0_components) :=
    water_ex_model.R1_components water_ex_model p (compartment.map PyFloat R10) in
  let '(C_t, C_cp, C_e) := pk_model.conc pk_model (Keyword pk_pars) in
  c ← compartment_conc v C_cp C_e;
  let R1 := compartment_R1 c_to_r_model R10 c in
  let '(R1_components, p_components) :=
    water_ex_model.R1_components water_ex_model p R1 in
  s_pre ← weighted_signal signal_model k R10_components p0_components;
  s_post ← weighted_signal signal_model k R1_components p_components;
  d ← np_sub s_post s_pre;
  m ← np_mul (PyFloat fhundred) d;
  np_div m s_pre.

(** A computation that does not end in [ZeroDivisionError]. *)
Definition no_zde {A} (m : result A) : Prop := m ≠ Raise ZeroDivisionError.

(** A NumPy scalar or array, as opposed to a Python float. *)
Definition is_numpy (a : npval) : Prop :=
  match a with
  | PyFloat _ => False
  | NpScalar _ | NpArray _ => True
  end.

(** The steps of [pkp_to_enh] from the per-compartment R1 on: both calls of
    the water-exchange model, the two signals and the percent change. *)
Definition enh_of_R1 (water_ex_model : water_ex_model.t)
    (signal_model : signal_model.t) (k : fnum)
    (p R10 : compartment.t fnum) (R1 : compartment.t npval) : result npval :=
  let '(R10_components, p0_components) :=
    water_ex_model.R1_components water_ex_model p (compartment.map PyFloat R10) in
  let '(R1_components, p_components) :=
    water_ex_model.R1_components water_ex_model p R1 in
  s_pre ← weighted_signal signal_model k R10_components p0_components;
  s_post ← weighted_signal signal_model k R1_components p_components;
  d ← np_sub s_post s_pre;
  m ← np_mul (PyFloat fhundred) d;
  np_div m s_pre.

(** ** [minimize_global] *)

(** What [scipy.optimize.minimize] returns, as far as the code reads it. *)
Module OptimizeResult.
Record t : Type := mk { x : list fnum; fun_ : fnum; success : bool }.
Definition set_success (flag : bool) (r : t) : t := mk (x r) (fun_ r) flag.
End OptimizeResult.

#[global] Instance OptimizeResult_eq_dec : EqDecision OptimizeResult.t.
Proof. solve_decision. Defined.

(** A cost function: called on a parameter vector, returns a float. *)
Definition cost_fn : Type := list fnum → result fnum.

(** [scipy.optimize.minimize(cost, x_0, **kwargs)] *)
Definition minimizer (K : Type) : Type :=
  cost_fn → list fnum → K → result OptimizeResult.t.

(** The minimizer that behaves as [minimize] but reports [flag] as its
    convergence status. *)
Definition with_success {K} (flag : bool) (minimize : minimizer K)
  : minimizer K := λ cost x_0 kwargs,
  OptimizeResult.set_success flag <$> minimize cost x_0 kwargs.

(** [costs.index(cost)], where [cost] is the object at position [j] of
    [costs]: the first position holding that object or an equal one. *)
Fixpoint index_from (i j : nat) (v : fnum) (xs : list fnum) : result nat :=
  match xs with
  | [] => Raise ValueError
  | x :: xs' =>
      if bool_decide (i = j) || feqb x v then Ok i
      else index_from (S i) j v xs'
  end.

Definition py_index (jv : nat * fnum) (xs : list fnum) : result nat :=
  index_from 0 jv.1 jv.2 xs.

Definition minimize_global {K} (minimize : minimizer K)
    (cost : cost_fn) (x_0_all : list (list fnum)) (kwargs : K)
  : result OptimizeResult.t :=
  results ← mapM (λ x_0, minimize cost x_0 kwargs) x_0_all;
  let costs := map OptimizeResult.fun_ results in
  cost ← py_min_pos costs;
  idx ← py_index cost costs;
  match results !! idx with
  | Some result => Ok result
  | None => Raise IndexError
  end.

(** ** [conc_to_pkp] and [enh_to_pkp] *)

(** The keyword arguments that both fitting functions pass on. *)
Record minimize_kwargs (C : Type) : Type := {
  args : option (list fnum);
  bounds : option (list (fnum * fnum));
  constraints : C;
  method : string
}.
Arguments args {C}.
Arguments bounds {C}.
Arguments constraints {C}.
Arguments method {C}.

Definition np_ones (n : nat) : list fnum := replicate n fone.

(** The series [fitted] with [nan] written where the weight is zero. *)
Definition nan_at_zero_weights (weights fitted : list fnum) : list fnum :=
  zip_with (λ w y, if feqb w fzero then NaN else y) weights fitted.

(** [a[weights == 0] = np.nan] for a float array [a]: the mask must have
    the shape of the array. *)
Definition nan_where_zero (a : npval) (weights : list fnum) : result npval :=
  match a with
  | PyFloat _ | NpScalar _ => Raise TypeError
  | NpArray ys =>
      if bool_decide (length weights = length ys)
      then Ok (NpArray (nan_at_zero_weights weights ys))
      else Raise IndexError
  end.

Section fitting.
Context {C : Type}.
Variable minimize : minimizer (minimize_kwargs C).
Variable pk_model : pk_model.t C.

Definition fit_kwargs : minimize_kwargs C :=
  {| args := None; bounds := None;
     constraints := pk_model.constraints pk_model;
     method := "trust-constr" |}.

Definition starting_points (pk_pars_0 : option (list (gmap string fnum)))
  : result (list (list fnum)) :=
  let pk_pars_0 :=
    match pk_pars_0 with
    | Some guesses => guesses
    | None => [pk_model.pkp_dict pk_model (pk_model.typical_vals pk_model)]
    end in
  let x_0_all := map (pk_model.pkp_array pk_model) pk_pars_0 in
  let x_scalefactor := pk_model.typical_vals pk_model in
  mapM (λ x_0, broadcast fdiv x_0 x_scalefactor) x_0_all.

(** The sum-of-squares function of [conc_to_pkp]. *)
Definition conc_cost (C_t weights : list fnum) : cost_fn := λ x_norm,
  x ← broadcast fmul x_norm (pk_model.typical_vals pk_model);
  let '(C_t_try, _C_cp, _C_e) := pk_model.conc pk_model (Positional x) in
  d ← np_sub C_t_try (NpArray C_t);
  weighted ← np_mul (NpArray weights) (np_square d);
  Ok (np_sum weighted).

Definition conc_to_pkp (C_t : list fnum)
    (pk_pars_0 : option (list (gmap string fnum)))
    (weights : option (list fnum))
  : result (gmap string fnum * npval) :=
  let weights := default (np_ones (length C_t)) weights in
  x_0_norm_all ← starting_points pk_pars_0;
  let x_scalefactor := pk_model.typical_vals pk_model in
  result ← minimize_global minimize (conc_cost C_t weights)
             x_0_norm_all fit_kwargs;
  x_opt ← broadcast fmul (OptimizeResult.x result) x_scalefactor;
  let pk_pars_opt := pk_model.pkp_dict pk_model x_opt in
  let '(Ct_fit, _C_cp, _C_e) := pk_model.conc pk_model (Positional x_opt) in
  Ct_fit ← nan_where_zero Ct_fit weights;
  Ok (pk_pars_opt, Ct_fit).

Variables (hct k R10_tissue R10_blood : fnum).
Variable c_to_r_model : c_to_r_model.t.
Variable water_ex_model : water_ex_model.t.
Variable signal_model : signal_model.t.

(** The sum-of-squares function of [enh_to_pkp]. *)
Definition enh_cost (enh weights : list fnum) : cost_fn := λ x_norm,
  x ← broadcast fmul x_norm (pk_model.typical_vals pk_model);
  let pk_pars_try := pk_model.pkp_dict pk_model x in
  enh_try ← pkp_to_enh pk_pars_try hct k R10_tissue R10_blood pk_model
              c_to_r_model water_ex_model signal_model;
  d ← np_sub enh_try (NpArray enh);
  weighted ← np_mul (NpArray weights) (np_square d);
  Ok (np_sum weighted).

Definition enh_to_pkp (enh : list fnum)
    (pk_pars_0 : option (list (gmap string fnum)))
    (weights : option (list fnum))
  : result (gmap string fnum * npval) :=
  let weights := default (np_ones (length enh)) weights in
  x_0_norm_all ← starting_points pk_pars_0;
  let x_scalefactor := pk_model.typical_vals pk_model in
  result ← minimize_global minimize (enh_cost enh weights)
             x_0_norm_all fit_kwargs;
  x_opt ← broadcast fmul (OptimizeResult.x result) x_scalefactor;
  let pk_pars_opt := pk_model.pkp_dict pk_model x_opt in
  enh_fit ← pkp_to_enh pk_pars_opt hct k R10_tissue R10_blood pk_model
              c_to_r_model water_ex_model signal_model;
  enh_fit ← nan_where_zero enh_fit weights;
  Ok (pk_pars_opt, enh_fit).
End fitting.

(** ** Water-exchange decompositions of [r_to_s.py] *)

Module r_to_s.
(** The relaxation rates of one compartment or component:
    the dicts with keys ['r1'] and ['r2s']. *)
Record relax : Type := { r1 : npval; r2s : npval }.

(** [len(a)] *)
Definition py_len (a : npval) : result nat :=
  match a with
  | NpArray xs => Ok (length xs)
  | PyFloat _ | NpScalar _ => Raise TypeError
  end.

(** [np.sum([p[compartment]*r[compartment][key] for compartment in r.keys()], 0)],
    the compartments taken in the order b, e, i. *)
Definition weighted_rate (p : compartment.t fnum) (r : compartment.t npval)
  : result npval :=
  rows ← mapM (λ pr : fnum * npval, np_mul (PyFloat pr.1) pr.2)
            [(compartment.b p, compartment.b r);
             (compartment.e p, compartment.e r);
             (compartment.i p, compartment.i r)];
  np_sum_axis0 rows.

(** Fast exchange: one component, the population-weighted mean rates. *)
Definition r_compartments_to_components_fxl
    (r : compartment.t relax) (p : compartment.t fnum)
  : result (list relax * list npval) :=
  r1_mean ← weighted_rate p (compartment.map r1 r);
  r2s_mean ← weighted_rate p (compartment.map r2s r);
  let r_components := [ {| r1 := r1_mean; r2s := r2s_mean |} ] in
  n ← py_len r1_mean;
  let p_components := [ NpArray (np_ones n) ] in
  Ok (r_components, p_components).

(** No exchange: one component per compartment, each with its own R1. *)
Definition r_compartments_to_components_nxl
    (r : compartment.t relax) (p : compartment.t fnum)
  : result (list relax * list npval) :=
  r2s_mean ← weighted_rate p (compartment.map r2s r);
  let r_components :=
    [ {| r1 := r1 (compartment.b r); r2s := r2s_mean |};
      {| r1 := r1 (compartment.e r); r2s := r2s_mean |};
      {| r1 := r1 (compartment.i r); r2s := r2s_mean |} ] in
  let p_components :=
    [ PyFloat (compartment.b p); PyFloat (compartment.e p);
      PyFloat (compartment.i p) ] in
  Ok (r_components, p_components).
End r_to_s.

(** ** Closeness within a tolerance *)

(** [|x - y| <= tol] on finite floats. *)
Definition fclose (tol : Qc) (x y : fnum) : Prop :=
  match x, y with
  | Fin a, Fin b => - tol ≤ a - b ∧ a - b ≤ tol
  | _, _ => False
  end.

#[global] Instance fclose_dec tol x y : Decision (fclose tol x y).
Proof. destruct x, y; simpl; apply _. Defined.



(** ** Concrete models and solvers

    Small instances of the pluggable parts, used to run the functions
    above on concrete inputs. *)

Definition fz (z : Z) : fnum := Fin (Qc_of_Z z).
Definition fq (n : Z) (d : positive) : fnum := Fin (Q2Qc (n # d)).

Definition np_map (f : fnum → fnum) (a : npval) : npval :=
  match a with
  | PyFloat x => PyFloat (f x)
  | NpScalar x => NpScalar (f x)
  | NpArray xs => NpArray (map f xs)
  end.

(** A model function returns normally: a shape error inside it shows as
    [nan]. *)
Definition or_nan (m : result npval) : npval :=
  match m with
  | Ok v => v
  | Raise _ => NpScalar NaN
  end.

(** Linear relaxivity, with unit relaxivities: [R1 = R10 + C], [R2 = R20 + C]. *)
Definition linear_relaxivity : c_to_r_model.t :=
  {| c_to_r_model.R1 := λ R10 C, np_map (fadd R10) C;
     c_to_r_model.R2 := λ R20 C, np_map (fadd R20) C |}.

(** A signal proportional to [R1]: [s = s0 * R1]. *)
Definition proportional_signal : signal_model.t :=
  {| signal_model.R_to_s := λ s0 R1 _ _ _, or_nan (np_mul (PyFloat s0) R1) |}.


(** A root finder that never converges. *)
Definition root_never : root_solver := λ _ x0 _ _,
  Ok {| RootResult.x := [x0]; RootResult.success := false |}.

(** One secant step from [x0] and [x0 + 1]; it reports success only when
    the point reached is an exact, finite root. *)
Definition secant_root : root_solver := λ f x0 _ _,
  y0 ← f (NpArray [x0]);
  y1 ← f (NpArray [fadd x0 fone]);
  match y0, y1 with
  | NpArray [f0], NpArray [f1] =>
      let x := fsub x0 (fdiv f0 (fsub f1 f0)) in
      y ← f (NpArray [x]);
      Ok {| RootResult.x := [x];
            RootResult.success :=
              bool_decide (is_finite x) && bool_decide (y = NpArray [fzero]) |}
  | _, _ => Ok {| RootResult.x := [x0]; RootResult.success := false |}
  end.

(** A local minimizer that stops at its starting point and reports
    convergence. *)
Definition minimize_at_start {K} : minimizer K := λ cost x_0 _,
  f ← cost x_0;
  Ok (OptimizeResult.mk x_0 f true).

(** The same, reporting convergence only from the start [[2]]. *)
Definition minimize_flagged {K} : minimizer K := λ cost x_0 _,
  f ← cost x_0;
  Ok (OptimizeResult.mk x_0 f (bool_decide (x_0 = [fz 2]))).

(** A local search that compares the start with the point one unit to its
    right (in the first coordinate) and keeps the lower of the two. *)
Definition minimize_two_point {K} : minimizer K := λ cost x_0, λ _,
  match x_0 with
  | [a] =>
      f0 ← cost [a];
      f1 ← cost [fadd a fone];
      if flt f1 f0 then Ok (OptimizeResult.mk [fadd a fone] f1 true)
      else Ok (OptimizeResult.mk [a] f0 true)
  | _ => f ← cost x_0; Ok (OptimizeResult.mk x_0 f true)
  end.

(** Cost functions: the first coordinate, and the first coordinate divided
    by itself ([nan] at zero, one elsewhere). *)
Definition first_coordinate : cost_fn := λ x,
  match x with
  | a :: _ => Ok a
  | [] => Raise IndexError
  end.

Definition ratio_cost : cost_fn := λ x,
  match x with
  | a :: _ => Ok (fdiv a a)
  | [] => Raise IndexError
  end.

(** A one-parameter PK model: every concentration series is the constant
    series of two samples at the parameter's value; the plasma and
    extravascular series are that value and twice that value. *)
Definition pk_value (a : conc_args) : fnum :=
  match a with
  | Positional (v :: _) => v
  | Positional [] => NaN
  | Keyword pk_pars => default NaN (pk_pars !! "ve")
  end.

Definition flat_pk_model : pk_model.t unit :=
  {| pk_model.conc := λ a,
       let v := pk_value a in
       (NpArray [v; v], NpArray [v; v], NpArray [fadd v v; fadd v v]);
     pk_model.pkp_dict := λ x, {[ "ve" := default NaN (head x) ]};
     pk_model.pkp_array := λ pk_pars, [default NaN (pk_pars !! "ve")];
     pk_model.typical_vals := [fone];
     pk_model.constraints := tt |}.

(** Modelled from the spec: the water-exchange classes that [dce_fit] calls
    are not among the sources.  No exchange yields one component per
    compartment, weighted by its population fraction (the R1 part of
    [r_to_s.r_compartments_to_components_nxl]). *)
Definition nxl : water_ex_model.t :=
  {| water_ex_model.R1_components := λ p R1,
       ([compartment.b R1; compartment.e R1; compartment.i R1],
        [PyFloat (compartment.b p); PyFloat (compartment.e p);
         PyFloat (compartment.i p)]) |}.

(** Modelled from the spec: fast exchange yields one component, the
    population-weighted mean R1, with weight one (the R1 part of
    [r_to_s.r_compartments_to_components_fxl]). *)
Definition fxl : water_ex_model.t :=
  {| water_ex_model.R1_components := λ p R1,
       ([or_nan (r_to_s.weighted_rate p R1)], [PyFloat fone]) |}.

(** ** Finite series

    Sums of rational samples, for the series that hold no [nan] and no
    infinity. *)

Definition Qc_sum (qs : list Qc) : Qc := foldl Qcplus 0 qs.

(** [100 * (q - m) / m] *)
Definition percent_change (m q : Qc) : Qc := Q2Qc 100 * ((q - m) / m).

(** An index that NumPy accepts for an array of length [n]. *)
Definition in_bounds (n : nat) (i : Z) : Prop :=
  (- Z.of_nat n ≤ i < Z.of_nat n)%Z.

#[global] Instance in_bounds_dec n i : Decision (in_bounds n i).
Proof. unfold in_bounds. apply _. Defined.

#[global] Instance raises_dec {A} (m : result A) : Decision (raises m).
Proof. destruct m; simpl; apply _. Defined.

(** The weighted sum of squared differences of two rational series. *)
Definition weighted_ssq (ws try obs : list Qc) : Qc :=
  Qc_sum (zip_with Qcmult ws ((λ d, d * d) <$> zip_with Qcminus try obs)).

(** A two-parameter PK model with the keys ['vp'] and ['ve']: every series
    is the constant series of two samples at the value of ['vp']. *)
Definition plasma_pk_model : pk_model.t unit :=
  {| pk_model.conc := λ a,
       let v := match a with
                | Positional x => default NaN (head x)
                | Keyword pk_pars => default NaN (pk_pars !! "vp")
                end in
       (NpArray [v; v], NpArray [v; v], NpArray [v; v]);
     pk_model.pkp_dict := λ x,
       {[ "vp" := default NaN (x !! 0%nat); "ve" := default NaN (x !! 1%nat) ]};
     pk_model.pkp_array := λ pk_pars,
       [default NaN (pk_pars !! "vp"); default NaN (pk_pars !! "ve")];
     pk_model.typical_vals := [fone; fone];
     pk_model.constraints := tt |}.

(** The shape of a value: [None] for a scalar, the length for a
    one-dimensional array. *)
Definition np_shape (a : npval) : option nat :=
  match a with
  | PyFloat _ | NpScalar _ => None
  | NpArray xs => Some (length xs)
  end.

(** The three values of a compartment dict have one shape. *)
Definition same_shape (r : compartment.t npval) : Prop :=
  np_shape (compartment.b r) = np_shape (compartment.e r)
  ∧ np_shape (compartment.e r) = np_shape (compartment.i r).

(** * Properties *)

Ltac simpl_result :=
  cbn [mbind result_bind mret result_ret fmap result_fmap] in *.

(** ** Arithmetic of the floats *)

Lemma fadd_nan_r x : fadd x NaN = NaN.
Proof. by destruct x. Qed.

Lemma signed_inf_not_finite a s : ¬ is_finite (signed_inf a s).
Proof. unfold signed_inf. destruct s; case_bool_decide; simpl; tauto. Qed.

Lemma fdiv_zero_not_finite x : ¬ is_finite (fdiv x fzero).
Proof.
  destruct x as [a| | |]; unfold fzero; cbn [fdiv]; try tauto.
  rewrite bool_decide_eq_true_2 by done.
  case_bool_decide; [simpl; tauto | apply signed_inf_not_finite].
Qed.

Lemma fhundred_ne_0 : Q2Qc 100 ≠ 0.
Proof. by_eval. Qed.

Lemma fmul_hundred_not_finite y :
  ¬ is_finite y → ¬ is_finite (fmul fhundred y).
Proof.
  destruct y as [b| | |]; unfold fhundred; cbn [fmul]; simpl; try tauto;
    rewrite (bool_decide_eq_false_2 _ fhundred_ne_0); intros _;
    apply signed_inf_not_finite.
Qed.

Lemma feqb_zero_iff x : feqb x fzero = true ↔ x = fzero.
Proof.
  unfold fzero. destruct x; simpl; rewrite ?bool_decide_eq_true;
    split; congruence.
Qed.

(** ** [volume_fractions] *)

Lemma volume_fractions_unfold pk_pars hct v :
  volume_fractions pk_pars hct = Ok v →
  ∃ vb,
    match pk_pars !! "vp" with
    | Some vp => py_div vp (fsub fone hct) = Ok vb
    | None => vb = fzero
    end
    ∧ v = match pk_pars !! "ve" with
          | Some ve => compartment.mk vb ve (fsub (fsub fone vb) ve)
          | None => compartment.mk vb (fsub fone vb) fzero
          end.
Proof.
  unfold volume_fractions. intros H.
  destruct (pk_pars !! "vp") as [vp|].
  - destruct (py_div vp (fsub fone hct)) as [vb|] eqn:Hd; [|done].
    exists vb. split; [done|]. simpl_result. congruence.
  - exists fzero. split; [done|]. simpl_result. congruence.
Qed.

(** C3. When the key ['ve'] is absent, [volume_fractions] returns an
    intracellular fraction of exactly zero and an extracellular fraction of
    exactly [1 - vb], where [vb] is [vp / (1 - hct)] when ['vp'] is present
    and zero otherwise. *)
Theorem volume_fractions_two_compartment
    (pk_pars : gmap string fnum) (hct : fnum) (v : compartment.t fnum) :
  pk_pars !! "ve" = None →
  volume_fractions pk_pars hct = Ok v →
  compartment.i v = fzero
  ∧ compartment.e v = fsub fone (compartment.b v)
  ∧ match pk_pars !! "vp" with
    | Some vp => py_div vp (fsub fone hct) = Ok (compartment.b v)
    | None => compartment.b v = fzero
    end.
Proof.
  intros Hve Hv.
  apply volume_fractions_unfold in Hv as (vb & Hvb & ->).
  rewrite Hve. by simpl.
Qed.

Lemma volume_fractions_two_compartment_witness :
  ∃ v, volume_fractions {[ "vp" := fq 1 10 ]} (fq 21 50) = Ok v
       ∧ compartment.i v = fzero
       ∧ compartment.e v = fsub fone (compartment.b v).
Proof.
  eexists. split; [reflexivity|].
  pose proof (volume_fractions_two_compartment
                {[ "vp" := fq 1 10 ]} (fq 21 50) _ eq_refl eq_refl) as (Hi & He & _).
  split; [exact Hi | exact He].
Defined.

(** ** Sequencing of fallible computations *)

Lemma mapM_cons {A B} (f : A → result B) x l :
  mapM f (x :: l) = y ← f x; k ← mapM f l; mret (y :: k).
Proof. reflexivity. Qed.

Lemma mapM_Ok_Forall2 {A B} (f : A → result B) l k :
  mapM f l = Ok k ↔ Forall2 (λ x y, f x = Ok y) l k.
Proof.
  revert k. induction l as [|x l IH]; intros k.
  - split; [intros [= <-]; constructor | by inversion 1].
  - rewrite mapM_cons. split.
    + destruct (f x) as [y|] eqn:Hx; [|done]. simpl_result.
      destruct (mapM f l) as [k'|] eqn:Hl; [|done]. simpl_result.
      intros [= <-]. constructor; [done|]. by apply IH.
    + inversion 1 as [|? y ? k' Hx Hl]; subst.
      rewrite Hx. simpl_result. apply IH in Hl. rewrite Hl. done.
Qed.

Lemma mapM_Ok_length {A B} (f : A → result B) l k :
  mapM f l = Ok k → length k = length l.
Proof. rewrite mapM_Ok_Forall2. intros H. symmetry. by eapply Forall2_length. Qed.

Lemma mapM_total {A B} (f : A → result B) l :
  Forall (λ x, ¬ raises (f x)) l → ∃ k, mapM f l = Ok k.
Proof.
  induction 1 as [|x l Hx _ [k Hk]]; [by exists []|].
  destruct (f x) as [y|] eqn:Hfx; [|by destruct Hx].
  exists (y :: k). by rewrite mapM_cons, Hfx, Hk.
Qed.

Lemma mapM_raises {A B} (f : A → result B) l x :
  x ∈ l → raises (f x) → raises (mapM f l).
Proof.
  intros Hin Hx. induction Hin as [x l | x y l _ IH]; rewrite mapM_cons.
  - by destruct (f x).
  - destruct (f y); [|done]. simpl_result.
    specialize (IH Hx). by destruct (mapM f l).
Qed.

Lemma mapM_raise_first {A B} (f : A → result B) pre x post err :
  Forall (λ y, ¬ raises (f y)) pre →
  f x = Raise err →
  mapM f (pre ++ x :: post) = Raise err.
Proof.
  intros Hpre Hx. induction Hpre as [|y pre Hy _ IH]; cbn [app].
  - by rewrite mapM_cons, Hx.
  - rewrite mapM_cons. destruct (f y); [|by destruct Hy].
    simpl_result. by rewrite IH.
Qed.

Lemma fmap_raises {A B} (g : A → B) (m : result A) :
  raises (g <$> m) ↔ raises m.
Proof. by destruct m. Qed.

(** ** [sig_to_enh] *)

Lemma np_mean_nil : np_mean [] = NaN.
Proof. by_eval. Qed.

Lemma enh_sample_nan x : fmul fhundred (fdiv (fsub x NaN) NaN) = NaN.
Proof. unfold fsub. simpl. by rewrite fadd_nan_r. Qed.

Lemma sig_to_enh_unfold s base_idx base :
  np_take s base_idx = Ok base →
  sig_to_enh s base_idx =
  Ok (NpArray (map (λ x, fmul fhundred
                           (fdiv (fsub x (np_mean base)) (np_mean base))) s)).
Proof.
  intros H. unfold sig_to_enh. rewrite H. simpl.
  by rewrite !map_map.
Qed.

(** C6, as the code has it.  [sig_to_enh] raises no domain error: when the
    baseline indices are in range and the baseline is empty or has mean
    zero, it returns normally a series as long as the signal in which no
    sample is a finite number; for an empty baseline every sample is
    [nan]. *)
Theorem sig_to_enh_degenerate_baseline
    (s : list fnum) (base_idx : list Z) (base : list fnum) :
  np_take s base_idx = Ok base →
  base = [] ∨ np_mean base = fzero →
  ∃ enh, sig_to_enh s base_idx = Ok (NpArray enh)
         ∧ length enh = length s
         ∧ Forall (λ x, ¬ is_finite x) enh
         ∧ (base = [] → Forall is_nan enh).
Proof.
  intros Htake Hdeg. eexists. split; [by apply sig_to_enh_unfold|].
  split; [by rewrite length_map|]. split.
  - apply Forall_map, Forall_forall. intros x _. cbn beta.
    destruct Hdeg as [-> | ->].
    + rewrite np_mean_nil, enh_sample_nan. simpl. tauto.
    + apply fmul_hundred_not_finite, fdiv_zero_not_finite.
  - intros ->. apply Forall_map, Forall_forall. intros x _. cbn beta.
    rewrite np_mean_nil. apply enh_sample_nan.
Qed.

Lemma sig_to_enh_degenerate_baseline_witness :
  ∃ enh, sig_to_enh [fz 100; fz 150] [] = Ok (NpArray enh)
         ∧ length enh = 2%nat
         ∧ Forall (λ x, ¬ is_finite x) enh.
Proof.
  destruct (sig_to_enh_degenerate_baseline [fz 100; fz 150] [] [])
    as (enh & H1 & H2 & H3 & _); [reflexivity | left; reflexivity |].
  exists enh. split; [exact H1 | split; [exact H2 | exact H3]].
Defined.

(** C6, as the claim has it, fails: with an empty baseline, and with a
    baseline of mean zero, [sig_to_enh] returns a series of [nan] and
    infinities instead of raising. *)
Lemma sig_to_enh_returns_nan_counterexample :
  sig_to_enh [fz 100; fz 150] [] = Ok (NpArray [NaN; NaN])
  ∧ sig_to_enh [fz (-1); fz 1; fz 3; fz 0] [0; 1]%Z
    = Ok (NpArray [NInf; PInf; PInf; NaN]).
Proof. split; by_eval. Qed.

(** ** [enh_to_conc] *)

(** C7. If the root finder, called from concentration zero with a budget
    of 1000 evaluations and tolerance 1e-7, reports failure for one sample
    of the series, [enh_to_conc] returns no series: it raises, and the
    failing sample's own conversion raises the assertion error. When every
    earlier sample converts, that assertion error is what [enh_to_conc]
    raises. *)
Theorem enh_to_conc_root_failure_is_fatal
    (root : root_solver) (k R10 : fnum)
    (c_to_r_model : c_to_r_model.t) (signal_model : signal_model.t)
    (enh : list fnum) (e : fnum) (res : RootResult.t) :
  e ∈ enh →
  root (enh_residual k R10 c_to_r_model signal_model e) fzero "hybr"
       {| maxfev := 1000; xtol := xtol_1e_7 |} = Ok res →
  RootResult.success res = false →
  enh_to_conc_single root k R10 c_to_r_model signal_model e
    = Raise (AssertionError root_failed)
  ∧ raises (enh_to_conc root k R10 c_to_r_model signal_model enh)
  ∧ ∀ pre post,
      enh = pre ++ e :: post →
      Forall (λ e', ¬ raises (enh_to_conc_single root k R10 c_to_r_model
                                signal_model e')) pre →
      enh_to_conc root k R10 c_to_r_model signal_model enh
        = Raise (AssertionError root_failed).
Proof.
  intros Hin Hroot Hfail.
  assert (Hsingle : enh_to_conc_single root k R10 c_to_r_model signal_model e
                    = Raise (AssertionError root_failed)).
  { unfold enh_to_conc_single. rewrite Hroot. simpl_result. by rewrite Hfail. }
  split; [done|]. split.
  - unfold enh_to_conc. apply fmap_raises.
    eapply mapM_raises; [done|]. by rewrite Hsingle.
  - intros pre post -> Hpre. unfold enh_to_conc.
    by rewrite (mapM_raise_first _ pre e post _ Hpre Hsingle).
Qed.

Lemma enh_to_conc_root_failure_is_fatal_witness :
  raises (enh_to_conc root_never fone fone linear_relaxivity
            proportional_signal [fz 10; fz 20; fz 30]).
Proof.
  eapply (enh_to_conc_root_failure_is_fatal root_never fone fone
            linear_relaxivity proportional_signal [fz 10; fz 20; fz 30] (fz 20)).
  - by_eval.
  - reflexivity.
  - reflexivity.
Defined.

(** ** The order on floats *)

Lemma flt_Fin a b : flt (Fin a) (Fin b) = true ↔ a < b.
Proof. simpl. by rewrite bool_decide_eq_true. Qed.

Lemma fle_Fin a b : fle (Fin a) (Fin b) = true ↔ a ≤ b.
Proof.
  unfold fle. simpl. rewrite orb_true_iff, !bool_decide_eq_true. split.
  - intros [H | [= ->]]; [by apply Qclt_le_weak | apply Qcle_refl].
  - intros H. apply Qcle_lt_or_eq in H as [H | ->]; auto.
Qed.

Lemma fle_refl x : x ≠ NaN → fle x x = true.
Proof.
  intros Hx. destruct x; try done; unfold fle; simpl;
    rewrite ?orb_true_iff, ?bool_decide_eq_true; auto.
Qed.

Lemma flt_fle x y : flt x y = true → fle x y = true.
Proof. unfold fle. by intros ->. Qed.

Lemma feqb_eq x y : feqb x y = true → x = y.
Proof. destruct x, y; simpl; rewrite ?bool_decide_eq_true; congruence. Qed.

Lemma feqb_fle x y : feqb x y = true → fle x y = true.
Proof. unfold fle. intros ->. apply orb_true_r. Qed.

Lemma fle_of_not_flt x y :
  x ≠ NaN → y ≠ NaN → flt x y = false → fle y x = true.
Proof.
  intros Hx Hy. destruct x as [a| | |], y as [b| | |]; try done.
  rewrite fle_Fin. simpl. rewrite bool_decide_eq_false.
  apply Qcnot_lt_le.
Qed.

Lemma flt_fle_trans x y z :
  flt x y = true → fle y z = true → fle x z = true.
Proof.
  destruct x as [a| | |], y as [b| | |], z as [c| | |]; try done.
  rewrite flt_Fin, !fle_Fin. intros H1 H2.
  apply Qclt_le_weak. by eapply Qclt_le_trans.
Qed.

(** ** Python's [min] and [list.index] *)

Lemma min_pos_from_lookup (l : list fnum) xs best_i best i :
  l !! best_i = Some best →
  drop i l = xs →
  l !! (min_pos_from best_i best i xs).1 = Some (min_pos_from best_i best i xs).2.
Proof.
  revert best_i best i. induction xs as [|x xs IH]; intros bi b i Hb Hdrop; [done|].
  assert (l !! i = Some x) as Hx.
  { rewrite <- (Nat.add_0_r i), <- lookup_drop, Hdrop. done. }
  assert (drop (S i) l = xs) as Hxs.
  { rewrite (drop_S _ _ _ Hx) in Hdrop. by injection Hdrop. }
  simpl. destruct (flt x b); by apply IH.
Qed.

Lemma min_pos_from_le xs best_i best i :
  best ≠ NaN →
  Forall (λ y, y ≠ NaN) xs →
  let v := (min_pos_from best_i best i xs).2 in
  v ≠ NaN ∧ fle v best = true ∧ Forall (λ y, fle v y = true) xs.
Proof.
  revert best_i best i. induction xs as [|x xs IH]; intros bi b i Hb Hxs.
  - simpl. split; [done|]. split; [by apply fle_refl | constructor].
  - inversion_clear Hxs as [|? ? Hx Hxs']. simpl.
    destruct (flt x b) eqn:Hlt.
    + destruct (IH i x (S i) Hx Hxs') as (Hv & Hvx & Hall).
      split; [done|]. split.
      * destruct (decide ((min_pos_from i x (S i) xs).2 = x)) as [->|Hne].
        -- by apply flt_fle.
        -- unfold fle in Hvx. apply orb_true_iff in Hvx as [Hvx | Hvx].
           ++ eapply flt_fle_trans; [done|]. by apply flt_fle.
           ++ apply feqb_eq in Hvx. done.
      * by constructor.
    + destruct (IH bi b (S i) Hb Hxs') as (Hv & Hvb & Hall).
      split; [done|]. split; [done|]. constructor; [|done].
      unfold fle in Hvb. apply orb_true_iff in Hvb as [Hvb | Hvb].
      * eapply flt_fle_trans; [done|]. by apply fle_of_not_flt.
      * apply feqb_eq in Hvb. rewrite Hvb. by apply fle_of_not_flt.
Qed.

Lemma index_from_spec xs i j v :
  (i ≤ j)%nat →
  xs !! (j - i)%nat = Some v →
  ∃ d w, index_from i j v xs = Ok (i + d)%nat
         ∧ xs !! d = Some w
         ∧ ((i + d)%nat = j ∨ feqb w v = true)
         ∧ ∀ d' y, (d' < d)%nat → xs !! d' = Some y → feqb y v = false.
Proof.
  revert i. induction xs as [|x xs IH]; intros i Hij Hv; [done|].
  simpl. destruct (bool_decide (i = j) || feqb x v) eqn:Hhit.
  - exists 0%nat, x. rewrite Nat.add_0_r. split; [done|]. split; [done|].
    split; [|intros; lia].
    apply orb_true_iff in Hhit as [Hhit | Hhit]; [left | by right].
    by apply bool_decide_eq_true in Hhit.
  - apply orb_false_iff in Hhit as [Hne Hx].
    apply bool_decide_eq_false in Hne.
    destruct (IH (S i)) as (d & w & Hidx & Hw & Hsame & Hfirst); [lia| |].
    { replace (j - i)%nat with (S (j - S i)) in Hv by lia. done. }
    exists (S d), w. split; [by rewrite Hidx, Nat.add_succ_r|].
    split; [done|]. split; [by rewrite Nat.add_succ_r|].
    intros [|d'] y Hd' Hy; [by injection Hy as <- | ].
    apply (Hfirst d' y); [lia | done].
Qed.

Lemma flt_irrefl x : flt x x = false.
Proof.
  destruct x as [a| | |]; try done. simpl. apply bool_decide_eq_false.
  intros H. by apply Qclt_not_eq in H.
Qed.

Lemma flt_trans x y z : flt x y = true → flt y z = true → flt x z = true.
Proof.
  destruct x as [a| | |], y as [b| | |], z as [c| | |]; try done.
  rewrite !flt_Fin. apply Qclt_trans.
Qed.

Lemma flt_asym x y : flt x y = true → flt y x = false.
Proof.
  intros Hxy. destruct (flt y x) eqn:Hyx; [|done].
  pose proof (flt_trans _ _ _ Hxy Hyx) as H. by rewrite flt_irrefl in H.
Qed.

Lemma fle_antisym x y : fle x y = true → fle y x = true → x = y.
Proof.
  unfold fle. intros [Hxy | Hxy]%orb_true_iff [Hyx | Hyx]%orb_true_iff.
  - pose proof (flt_trans _ _ _ Hxy Hyx) as H. by rewrite flt_irrefl in H.
  - symmetry. by apply feqb_eq.
  - by apply feqb_eq.
  - by apply feqb_eq.
Qed.

Lemma fle_trans x y z : fle x y = true → fle y z = true → fle x z = true.
Proof.
  intros Hxy Hyz. unfold fle in Hxy. apply orb_true_iff in Hxy as [Hlt | Heq].
  - by eapply flt_fle_trans.
  - apply feqb_eq in Heq. by subst.
Qed.

(** The value that [min] keeps is never beaten, [nan] or not. *)
Lemma min_pos_from_not_beaten xs best_i best i :
  ((min_pos_from best_i best i xs).2 = best
   ∨ flt (min_pos_from best_i best i xs).2 best = true)
  ∧ Forall (λ y, flt y (min_pos_from best_i best i xs).2 = false) xs.
Proof.
  revert best_i best i. induction xs as [|x xs IH]; intros bi b i.
  - split; [by left | constructor].
  - cbn [min_pos_from]. destruct (flt x b) eqn:Hlt.
    + destruct (IH i x (S i)) as [Hv Hall]. split.
      * right. destruct Hv as [-> | Hv]; [done | by eapply flt_trans].
      * constructor; [|done].
        destruct Hv as [-> | Hv]; [apply flt_irrefl | by apply flt_asym].
    + destruct (IH bi b (S i)) as [Hv Hall]. split; [exact Hv|].
      constructor; [|done].
      destruct (flt x (min_pos_from bi b (S i) xs).2) eqn:Hx; [|done].
      destruct Hv as [Hv | Hv]; [by rewrite Hv, Hlt in Hx|].
      pose proof (flt_trans _ _ _ Hx Hv) as H. by rewrite Hlt in H.
Qed.

Lemma py_min_pos_not_beaten xs j v :
  py_min_pos xs = Ok (j, v) → Forall (λ y, flt y v = false) xs.
Proof.
  destruct xs as [|x xs]; [done|]. cbn [py_min_pos]. intros [= Hmin].
  destruct (min_pos_from_not_beaten xs 0 x 1) as [Hv Hall].
  rewrite Hmin in Hv, Hall. cbn [snd] in Hv, Hall. constructor; [|done].
  destruct Hv as [-> | Hv]; [apply flt_irrefl | by apply flt_asym].
Qed.

Lemma minimize_global_Ok_inv {K} (minimize : minimizer K) cost x_0_all kwargs
    best :
  minimize_global minimize cost x_0_all kwargs = Ok best →
  ∃ results,
    mapM (λ x_0, minimize cost x_0 kwargs) x_0_all = Ok results
    ∧ results ≠ [].
Proof.
  unfold minimize_global.
  destruct (mapM _ x_0_all) as [results|]; [|done]. simpl_result.
  intros H. exists results. split; [done|]. by intros ->.
Qed.

(** ** [volume_fractions] in rounded arithmetic *)

Lemma Qc_eq_Qeq (x y : Qc) : x = y → (this x == this y)%Q.
Proof. by intros ->. Qed.

(** Inequalities between rationals in canonical form are settled on the
    underlying fractions. *)
Ltac qc_to_q :=
  intros;
  repeat match goal with
         | H : @eq Qc _ _ |- _ => apply Qc_eq_Qeq in H
         end;
  unfold Qcle, Qclt in *;
  cbn [this Qcplus Qcmult Qcopp Qcminus Q2Qc] in *;
  rewrite ?Qred_correct in *.

Ltac qc_nra := qc_to_q; nra.

Lemma rounded_fl_exact x : rounded.fl Fin x = x.
Proof. by destruct x. Qed.

(** With the rounding that changes nothing, the rounded function is the
    exact one. *)
Lemma rounded_volume_fractions_exact pk_pars hct :
  rounded.volume_fractions Fin pk_pars hct = volume_fractions pk_pars hct.
Proof.
  unfold rounded.volume_fractions, volume_fractions, rounded.py_div, py_div,
    rounded.sub, rounded.div.
  rewrite !rounded_fl_exact.
  destruct (pk_pars !! "vp") as [vp|], (pk_pars !! "ve") as [ve|];
    repeat case_match; simpl_result; by rewrite ?rounded_fl_exact.
Qed.

Lemma rounded_volume_fractions_unfold rnd pk_pars hct v :
  rounded.volume_fractions rnd pk_pars hct = Ok v →
  ∃ vb,
    v = match pk_pars !! "ve" with
        | Some ve =>
            compartment.mk vb ve (rounded.sub rnd (rounded.sub rnd fone vb) ve)
        | None => compartment.mk vb (rounded.sub rnd fone vb) fzero
        end.
Proof.
  unfold rounded.volume_fractions. intros H.
  destruct (pk_pars !! "vp") as [vp|].
  - destruct (rounded.py_div rnd vp _) as [vb|]; [|done].
    exists vb. simpl_result. congruence.
  - exists fzero. simpl_result. congruence.
Qed.

Lemma fle_zero_Fin x : fle fzero x = true → x = PInf ∨ ∃ a, x = Fin a ∧ 0 ≤ a.
Proof.
  destruct x as [a| | |]; try done; [|by left].
  intros H. right. exists a. split; [done|]. by apply fle_Fin.
Qed.

Lemma fle_Fin_r x c : fle x (Fin c) = true → x = NInf ∨ ∃ a, x = Fin a ∧ a ≤ c.
Proof.
  destruct x as [a| | |]; try done; [|by left].
  intros H. right. exists a. split; [done|]. by apply fle_Fin.
Qed.

Section rounding_errors.
Variables (u eta : Qc).
Hypothesis Hu : 0 ≤ u.
Hypothesis Heta : 0 ≤ eta.
Hypothesis Hsmall : u + eta ≤ Q2Qc (1 # 16).

Lemma round_below_negative (q d t hi : Qc) :
  Q2Qc 2 ≤ hi → q ≤ - hi →
  - u ≤ d → d ≤ u → - eta ≤ t → t ≤ eta →
  q * (1 + d) + t < 0.
Proof. revert Hu Heta Hsmall. qc_nra. Qed.

Lemma round_upper (q d t : Qc) :
  q ≤ 1 →
  - u ≤ d → d ≤ u → - eta ≤ t → t ≤ eta →
  q * (1 + d) + t ≤ Q2Qc 2.
Proof.
  revert Hu Heta Hsmall. intros.
  destruct (Qclt_le_dec q 0); qc_nra.
Qed.

(** The error of [vb + ve + vi] in exact arithmetic, for
    [vi = rnd (rnd (1 - vb) - ve)]. *)
Lemma sum_three (b e a r d1 t1 d2 t2 : Qc) :
  0 ≤ b → 0 ≤ e → 0 ≤ r →
  - u ≤ d1 → d1 ≤ u → - eta ≤ t1 → t1 ≤ eta →
  - u ≤ d2 → d2 ≤ u → - eta ≤ t2 → t2 ≤ eta →
  a = (1 - b) * (1 + d1) + t1 →
  r = (a - e) * (1 + d2) + t2 →
  1 - Q2Qc 3 * (u + eta) ≤ b + e + r ∧ b + e + r ≤ 1 + Q2Qc 3 * (u + eta).
Proof.
  revert Hu Heta Hsmall. intros.
  assert (- (Q2Qc 2 * eta) ≤ a - e) by qc_nra.
  assert (- (Q2Qc 6 * eta) ≤ 1 - b) by qc_nra.
  assert (a - e ≤ 1 + u + eta) by qc_nra.
  split; qc_nra.
Qed.

(** The same for [ve = rnd (1 - vb)] and [vi = 0]. *)
Lemma sum_two (b a d1 t1 : Qc) :
  0 ≤ b → 0 ≤ a →
  - u ≤ d1 → d1 ≤ u → - eta ≤ t1 → t1 ≤ eta →
  a = (1 - b) * (1 + d1) + t1 →
  1 - Q2Qc 3 * (u + eta) ≤ b + a + 0 ∧ b + a + 0 ≤ 1 + Q2Qc 3 * (u + eta).
Proof.
  revert Hu Heta Hsmall. intros.
  assert (- (Q2Qc 2 * eta) ≤ 1 - b) by qc_nra.
  split; qc_nra.
Qed.

(** The two roundings of the sum [(vb + ve) + vi] itself. *)
Lemma sum_rounded (p r s1 s d3 t3 d4 t4 : Qc) :
  0 ≤ p → 0 ≤ r →
  1 - Q2Qc 3 * (u + eta) ≤ p + r → p + r ≤ 1 + Q2Qc 3 * (u + eta) →
  - u ≤ d3 → d3 ≤ u → - eta ≤ t3 → t3 ≤ eta →
  - u ≤ d4 → d4 ≤ u → - eta ≤ t4 → t4 ≤ eta →
  s1 = p * (1 + d3) + t3 →
  s = (s1 + r) * (1 + d4) + t4 →
  1 - Q2Qc 6 * (u + eta) ≤ s ∧ s ≤ 1 + Q2Qc 6 * (u + eta).
Proof.
  revert Hu Heta Hsmall. intros.
  assert (p ≤ Q2Qc 2) by qc_nra.
  assert (1 - Q2Qc 5 * (u + eta) ≤ s1 + r) by qc_nra.
  assert (s1 + r ≤ 1 + Q2Qc 5 * (u + eta)) by qc_nra.
  split; qc_nra.
Qed.

Lemma sum_rounded_range (p r s1 d3 t3 : Qc) :
  0 ≤ p → 0 ≤ r →
  p + r ≤ 1 + Q2Qc 3 * (u + eta) →
  - u ≤ d3 → d3 ≤ u → - eta ≤ t3 → t3 ≤ eta →
  s1 = p * (1 + d3) + t3 →
  p ≤ Q2Qc 2 ∧ - Q2Qc 2 ≤ s1 + r ∧ s1 + r ≤ Q2Qc 2.
Proof.
  revert Hu Heta Hsmall. intros.
  assert (p ≤ Q2Qc 2) by qc_nra.
  split; [done|]. split; qc_nra.
Qed.
End rounding_errors.

Section rounded_fractions.
Variables (rnd : Qc → fnum) (u eta hi : Qc).
Hypothesis Hrnd : rounds_to_nearest rnd u eta hi.
Hypothesis Hu : 0 ≤ u.
Hypothesis Heta : 0 ≤ eta.
Hypothesis Hsmall : u + eta ≤ Q2Qc (1 # 16).
Hypothesis Hhi : Q2Qc 2 ≤ hi.

(** A result that is not above the range and is returned as a float that
    is not negative was in the range, and is returned with a small error. *)
Lemma rnd_nonneg q :
  q ≤ hi → fle fzero (rnd q) = true →
  ∃ r d t, rnd q = Fin r ∧ 0 ≤ r ∧ r = q * (1 + d) + t
           ∧ - u ≤ d ∧ d ≤ u ∧ - eta ≤ t ∧ t ≤ eta.
Proof.
  intros Hq Hnn. destruct Hrnd as (Hin & Hbelow & _).
  destruct (Qclt_le_dec q (- hi)) as [Hlow | Hlow].
  - exfalso. pose proof (fle_trans _ _ _ Hnn (Hbelow q Hlow)) as H.
    apply fle_Fin in H. revert H Hhi. clear. qc_nra.
  - destruct (Hin q Hlow Hq) as (r & d & t & Hr & Heq & Hd).
    exists r, d, t. rewrite Hr in Hnn. apply fle_Fin in Hnn. done.
Qed.

Lemma first_difference b a :
  0 ≤ b → rounded.sub rnd fone (Fin b) = a →
  a = NInf
  ∨ (∃ a', a = Fin a' ∧ a' ≤ - hi)
  ∨ (∃ a' d t, a = Fin a' ∧ a' = (1 - b) * (1 + d) + t
               ∧ - u ≤ d ∧ d ≤ u ∧ - eta ≤ t ∧ t ≤ eta ∧ a' ≤ Q2Qc 2).
Proof.
  intros Hb <-. unfold rounded.sub.
  change (fsub fone (Fin b)) with (Fin (1 - b)). cbn [rounded.fl].
  destruct Hrnd as (Hin & Hbelow & _).
  destruct (Qclt_le_dec (1 - b) (- hi)) as [Hlow | Hlow].
  - apply Hbelow, fle_Fin_r in Hlow as [-> | (a' & -> & Ha')]; [by left|].
    right. left. by exists a'.
  - right. right.
    destruct (Hin (1 - b) Hlow) as (a' & d & t & -> & Heq & Hd1 & Hd2 & Ht1 & Ht2).
    { revert Hb Hhi. clear. qc_nra. }
    exists a', d, t. do 6 (split; [done|]).
    rewrite Heq. apply (round_upper u eta Hu Heta Hsmall); try done.
    revert Hb. clear. qc_nra.
Qed.

(** The third fraction [(1 - vb) - ve], when it is not negative. *)
Lemma third_fraction b e vi :
  0 ≤ b → 0 ≤ e →
  rounded.sub rnd (rounded.sub rnd fone (Fin b)) (Fin e) = vi →
  fle fzero vi = true →
  ∃ a r d1 t1 d2 t2,
    vi = Fin r ∧ 0 ≤ r
    ∧ a = (1 - b) * (1 + d1) + t1 ∧ r = (a - e) * (1 + d2) + t2
    ∧ (- u ≤ d1 ∧ d1 ≤ u ∧ - eta ≤ t1 ∧ t1 ≤ eta)
    ∧ (- u ≤ d2 ∧ d2 ≤ u ∧ - eta ≤ t2 ∧ t2 ≤ eta).
Proof.
  intros Hb He <- Hvi.
  destruct (first_difference b _ Hb eq_refl)
    as [Ha | [(a' & Ha & Hlow) | (a' & d1 & t1 & Ha & Heq & Hd1 & Hd1' & Ht1 & Ht1' & Hup)]];
    rewrite Ha in Hvi |- *.
  - done.
  - exfalso. unfold rounded.sub in Hvi.
    change (fsub (Fin a') (Fin e)) with (Fin (a' - e)) in Hvi.
    cbn [rounded.fl] in Hvi.
    destruct (rnd_nonneg (a' - e)) as (r & d & t & _ & Hr & Hreq & Hd & Hd' & Ht & Ht');
      [revert He Hlow Hhi; clear; qc_nra | done |].
    assert (a' - e ≤ - hi) as Hq by (revert He Hlow; clear; qc_nra).
    pose proof (round_below_negative u eta Hu Heta Hsmall (a' - e) d t hi
                  Hhi Hq Hd Hd' Ht Ht') as Hneg.
    rewrite <- Hreq in Hneg. by apply Qclt_not_le in Hneg.
  - unfold rounded.sub in Hvi |- *.
    change (fsub (Fin a') (Fin e)) with (Fin (a' - e)) in Hvi |- *.
    cbn [rounded.fl] in Hvi |- *.
    destruct (rnd_nonneg (a' - e)) as (r & d2 & t2 & Hr & Hr0 & Hreq & Hd);
      [revert He Hup Hhi; clear; qc_nra | done |].
    exists a', r, d1, t1, d2, t2. by rewrite Hr.
Qed.

(** The second fraction [1 - vb] of the two-compartment case. *)
Lemma second_fraction b ve :
  0 ≤ b → rounded.sub rnd fone (Fin b) = ve → fle fzero ve = true →
  ∃ a d t, ve = Fin a ∧ 0 ≤ a ∧ a = (1 - b) * (1 + d) + t
           ∧ - u ≤ d ∧ d ≤ u ∧ - eta ≤ t ∧ t ≤ eta.
Proof.
  intros Hb <- Hve. unfold rounded.sub in Hve |- *.
  change (fsub fone (Fin b)) with (Fin (1 - b)) in Hve |- *.
  cbn [rounded.fl] in Hve |- *. apply rnd_nonneg; [|done].
  revert Hb Hhi. clear. qc_nra.
Qed.

(** The sum [(vb + ve) + vi] as the float arithmetic computes it. *)
Lemma computed_sum b e r :
  0 ≤ b → 0 ≤ e → 0 ≤ r →
  1 - Q2Qc 3 * (u + eta) ≤ b + e + r → b + e + r ≤ 1 + Q2Qc 3 * (u + eta) →
  ∃ s, rounded.add rnd (rounded.add rnd (Fin b) (Fin e)) (Fin r) = Fin s
       ∧ 1 - Q2Qc 6 * (u + eta) ≤ s ∧ s ≤ 1 + Q2Qc 6 * (u + eta).
Proof.
  intros Hb He Hr Hlo Hup. unfold rounded.add.
  change (fadd (Fin b) (Fin e)) with (Fin (b + e)). cbn [rounded.fl].
  destruct Hrnd as (Hin & _ & _).
  assert (0 ≤ b + e) as Hp by (revert Hb He; clear; qc_nra).
  destruct (Hin (b + e)) as (s1 & d3 & t3 & -> & Hs1 & Hd3 & Hd3' & Ht3 & Ht3').
  { revert Hp Hhi. clear. qc_nra. }
  { revert Hr Hup Hhi Hu Heta Hsmall. clear. qc_nra. }
  change (fadd (Fin s1) (Fin r)) with (Fin (s1 + r)). cbn [rounded.fl].
  destruct (sum_rounded_range u eta Hu Heta Hsmall (b + e) r s1 d3 t3)
    as (_ & Hlo4 & Hup4); try done.
  destruct (Hin (s1 + r)) as (s & d4 & t4 & -> & Hs & Hd4 & Hd4' & Ht4 & Ht4').
  { revert Hlo4 Hhi. clear. qc_nra. }
  { revert Hup4 Hhi. clear. qc_nra. }
  exists s. split; [done|].
  by apply (sum_rounded u eta Hu Heta Hsmall (b + e) r s1 s d3 t3 d4 t4).
Qed.
End rounded_fractions.

(** C2.  In floating-point arithmetic with unit roundoff [u] and underflow
    unit [eta] (for binary64: [2^-53] and [2^-1075]), whenever
    [volume_fractions] returns fractions that are all non-negative, they are
    finite, and they add up to one within the tolerance of the rounding:
    the exact sum of the three floats is within [3 * (u + eta)] of one, and
    the sum [vb + ve + vi] as the float arithmetic computes it is within
    [6 * (u + eta)] of one. *)
Theorem volume_fractions_sum_to_one
    (rnd : Qc → fnum) (u eta hi : Qc)
    (pk_pars : gmap string fnum) (hct : fnum) (v : compartment.t fnum) :
  rounds_to_nearest rnd u eta hi →
  0 ≤ u → 0 ≤ eta → u + eta ≤ Q2Qc (1 # 16) → Q2Qc 2 ≤ hi →
  rounded.volume_fractions rnd pk_pars hct = Ok v →
  fle fzero (compartment.b v) = true →
  fle fzero (compartment.e v) = true →
  fle fzero (compartment.i v) = true →
  ∃ vb ve vi s,
    compartment.b v = Fin vb ∧ compartment.e v = Fin ve
    ∧ compartment.i v = Fin vi
    ∧ 1 - Q2Qc 3 * (u + eta) ≤ vb + ve + vi
    ∧ vb + ve + vi ≤ 1 + Q2Qc 3 * (u + eta)
    ∧ rounded.add rnd (rounded.add rnd (compartment.b v) (compartment.e v))
        (compartment.i v)
      = Fin s
    ∧ 1 - Q2Qc 6 * (u + eta) ≤ s
    ∧ s ≤ 1 + Q2Qc 6 * (u + eta).
Proof.
  intros Hrnd Hu Heta Hsmall Hhi Hv Hb He Hi.
  apply rounded_volume_fractions_unfold in Hv as (vb & ->).
  destruct (pk_pars !! "ve") as [ve|];
    cbn [compartment.b compartment.e compartment.i] in *.
  - apply fle_zero_Fin in Hb as [-> | (b & -> & Hb)].
    { exfalso. clear -Hi He. destruct ve; done. }
    apply fle_zero_Fin in He as [-> | (e & -> & He)].
    { exfalso. clear -Hi. unfold rounded.sub at 1 in Hi.
      destruct (rounded.sub rnd fone (Fin b)); done. }
    destruct (third_fraction rnd u eta hi Hrnd Hu Heta Hsmall Hhi b e _ Hb He
                eq_refl Hi)
      as (a & r & d1 & t1 & d2 & t2 & Hvi & Hr & Ha & Hreq
          & (Hd1 & Hd1' & Ht1 & Ht1') & (Hd2 & Hd2' & Ht2 & Ht2')).
    rewrite Hvi.
    destruct (sum_three u eta Hu Heta Hsmall b e a r d1 t1 d2 t2) as [Hlo Hup];
      try done.
    destruct (computed_sum rnd u eta hi Hrnd Hu Heta Hsmall Hhi b e r)
      as (s & Hs & Hslo & Hsup); try done.
    by exists b, e, r, s.
  - apply fle_zero_Fin in Hb as [-> | (b & -> & Hb)].
    { exfalso. clear -He. done. }
    destruct (second_fraction rnd u eta hi Hrnd Hhi b _ Hb eq_refl He)
      as (a & d & t & Hve & Ha & Heq & Hd & Hd' & Ht & Ht').
    rewrite Hve.
    destruct (sum_two u eta Hu Heta Hsmall b a d t) as [Hlo Hup]; try done.
    destruct (computed_sum rnd u eta hi Hrnd Hu Heta Hsmall Hhi b a 0)
      as (s & Hs & Hslo & Hsup); try done.
    by exists b, a, 0, s.
Qed.

(** ** The rounding of binary64 *)

Section binary64_rounding.
Local Open Scope Q_scope.

Lemma pow2_pos z : 0 < pow2 z.
Proof. apply Qpower_0_lt. reflexivity. Qed.

Lemma pow2_add a b : pow2 (a + b) == pow2 a * pow2 b.
Proof. apply Qpower_plus. discriminate. Qed.

Lemma pow2_le a b : (a <= b)%Z -> pow2 a <= pow2 b.
Proof. intros H. apply Qpower_le_compat_l; [exact H | discriminate]. Qed.

Lemma pow2_lt a b : (a < b)%Z -> pow2 a < pow2 b.
Proof. intros H. apply Qpower_lt_compat_l; [exact H | reflexivity]. Qed.

Lemma pow2_lt_inv a b : pow2 a < pow2 b -> (a < b)%Z.
Proof. intros H. eapply Qpower_lt_compat_l_inv; [exact H | reflexivity]. Qed.

Lemma pow2_succ a : pow2 (a + 1) == 2 * pow2 a.
Proof. rewrite pow2_add. change (pow2 1) with 2. ring. Qed.

Lemma pow2_Z k : (0 <= k)%Z -> inject_Z (2 ^ k) == pow2 k.
Proof. intros H. apply Zpower_Qpower. exact H. Qed.

Lemma log2_bounds (n : Z) :
  (0 < n)%Z ->
  pow2 (Z.log2 n) <= inject_Z n /\ inject_Z n < 2 * pow2 (Z.log2 n).
Proof.
  intros Hn. destruct (Z.log2_spec n Hn) as [H1 H2].
  pose proof (Z.log2_nonneg n) as H0.
  rewrite <- pow2_succ, <- !pow2_Z by lia.
  split; [rewrite <- Zle_Qle | rewrite <- Zlt_Qlt]; [exact H1|].
  replace (Z.log2 n + 1)%Z with (Z.succ (Z.log2 n)) by lia. exact H2.
Qed.

Lemma floor_log2_spec x :
  0 < x -> pow2 (floor_log2 x) <= x /\ x < 2 * pow2 (floor_log2 x).
Proof.
  intros Hx. unfold floor_log2.
  set (n := Qnum x). set (d := Zpos (Qden x)).
  assert (0 < n)%Z as Hn.
  { unfold Qlt in Hx. simpl in Hx. subst n. lia. }
  destruct (log2_bounds n Hn) as [Hn1 Hn2].
  destruct (log2_bounds d ltac:(subst d; lia)) as [Hd1 Hd2].
  set (k := (Z.log2 n - Z.log2 d)%Z).
  assert (pow2 (Z.log2 n) == pow2 k * pow2 (Z.log2 d)) as Hk.
  { rewrite <- pow2_add. subst k.
    replace (Z.log2 n - Z.log2 d + Z.log2 d)%Z with (Z.log2 n) by lia. reflexivity. }
  assert (x * inject_Z d == inject_Z n) as Hxd.
  { subst n d. destruct x as [xn xd]. unfold Qeq, inject_Z, Qmult. simpl. lia. }
  pose proof (pow2_pos k) as HK. pose proof (pow2_pos (Z.log2 d)) as HB.
  pose proof (pow2_pos (Z.log2 n)) as HA.
  assert (0 < inject_Z d) as HD by lra.
  assert (x < 2 * pow2 k) as Hup.
  { apply Qnot_le_lt. intros Hc.
    assert (2 * pow2 k * inject_Z d <= x * inject_Z d) by nra. nra. }
  assert (pow2 (k - 1) <= x) as Hlo.
  { assert (pow2 k == 2 * pow2 (k - 1)) as Hk1.
    { rewrite <- pow2_succ.
      replace (k - 1 + 1)%Z with k by lia. reflexivity. }
    apply Qnot_lt_le. intros Hc.
    assert (x * inject_Z d <= pow2 (k - 1) * inject_Z d) by nra. nra. }
  destruct (Qle_bool (pow2 k) x) eqn:Hb.
  - apply Qle_bool_iff in Hb. split; [exact Hb | exact Hup].
  - split; [exact Hlo|].
    assert (~ pow2 k <= x) as Hnb.
    { intros Hc. apply Qle_bool_iff in Hc. congruence. }
    apply Qnot_le_lt in Hnb.
    assert (pow2 k == 2 * pow2 (k - 1)) as Hk1.
    { rewrite <- pow2_succ.
      replace (k - 1 + 1)%Z with k by lia. reflexivity. }
    lra.
Qed.

Lemma round_half_even_spec m :
  inject_Z (round_half_even m) - m <= 1 # 2
  /\ m - inject_Z (round_half_even m) <= 1 # 2.
Proof.
  unfold round_half_even.
  pose proof (Qfloor_le m) as H1. pose proof (Qlt_floor m) as H2.
  rewrite inject_Z_plus in H2. change (inject_Z 1) with 1 in H2.
  destruct (Qcompare_spec (m - inject_Z (Qfloor m)) (1 # 2)) as [Hc | Hc | Hc].
  - destruct (Z.even (Qfloor m)).
    + split; lra.
    + rewrite inject_Z_plus. change (inject_Z 1) with 1. split; lra.
  - split; lra.
  - rewrite inject_Z_plus. change (inject_Z 1) with 1. split; lra.
Qed.

Lemma round_half_even_le m N :
  m <= inject_Z N -> (round_half_even m <= N)%Z.
Proof.
  intros Hm. destruct (round_half_even_spec m) as [H1 _].
  assert (inject_Z (round_half_even m) < inject_Z (N + 1)) as H.
  { rewrite inject_Z_plus. change (inject_Z 1) with 1. lra. }
  rewrite <- Zlt_Qlt in H. lia.
Qed.

Lemma round_half_even_ge m N :
  inject_Z N <= m -> (N <= round_half_even m)%Z.
Proof.
  intros Hm. destruct (round_half_even_spec m) as [_ H2].
  assert (inject_Z N < inject_Z (round_half_even m + 1)) as H.
  { rewrite inject_Z_plus. change (inject_Z 1) with 1. lra. }
  rewrite <- Zlt_Qlt in H. lia.
Qed.

(** The value returned is within half a unit in the last place. *)
Lemma binary64_value_near x :
  let s := pow2 (binary64_exponent x) in
  binary64_value x - x <= (1 # 2) * s /\ x - binary64_value x <= (1 # 2) * s.
Proof.
  intros s. unfold binary64_value. fold s.
  pose proof (pow2_pos (binary64_exponent x)) as Hs. fold s in Hs.
  destruct (round_half_even_spec (x / s)) as [H1 H2].
  set (n := inject_Z (round_half_even (x / s))) in *.
  assert (x == (x / s) * s) as Hx by (field; lra).
  set (m := x / s) in *.
  assert (0 <= ((1 # 2) - (n - m)) * s) by (apply Qmult_le_0_compat; lra).
  assert (0 <= ((1 # 2) - (m - n)) * s) by (apply Qmult_le_0_compat; lra).
  split; lra.
Qed.

Ltac closed_Q := first [apply Qlt_alt | apply Qle_alt | apply Qeq_alt]; vm_compute;
  first [reflexivity | discriminate].

Lemma hi64_below : hi64 + pow2 970 < pow2 1024.
Proof. closed_Q. Qed.

Lemma hi64_above : pow2 1023 <= hi64.
Proof. closed_Q. Qed.

Lemma eta64_half : (1 # 2) * pow2 (-1074) == eta64.
Proof. closed_Q. Qed.

Lemma pow2_pred a : pow2 a == 2 * pow2 (a - 1).
Proof.
  rewrite <- pow2_succ. replace (a - 1 + 1)%Z with a by lia. reflexivity.
Qed.

Lemma pow2_53 e : pow2 e * u64 == (1 # 2) * pow2 (e - 52).
Proof.
  unfold u64. rewrite <- pow2_add. rewrite (pow2_pred (e - 52)).
  replace (e - 52 - 1)%Z with (e + -53)%Z by lia. ring.
Qed.

Lemma pow2_52 e : pow2 e == inject_Z (2 ^ 52) * pow2 (e - 52).
Proof.
  rewrite pow2_Z by lia. rewrite <- pow2_add.
  replace (52 + (e - 52))%Z with e by lia. reflexivity.
Qed.

Section binary64_of.
Variable x : Q.
Hypothesis Hx : ~ x == 0.

Let a := Qabs x.
Let e := floor_log2 a.
Let ex := binary64_exponent x.
Let s := pow2 ex.
Let r := binary64_value x.

Lemma binary64_abs_pos : 0 < a.
Proof.
  subst a. pose proof (Qabs_nonneg x) as H.
  destruct (Qeq_dec (Qabs x) 0) as [H0 | H0]; [|lra].
  exfalso. apply Hx. revert H0. apply Qabs_case; intros; lra.
Qed.

Lemma binary64_abs_bounds : pow2 e <= a /\ a < 2 * pow2 e.
Proof. apply floor_log2_spec, binary64_abs_pos. Qed.

Lemma binary64_exponent_cases :
  (ex = e - 52 /\ -1074 <= e - 52)%Z \/ (ex = -1074 /\ e - 52 < -1074)%Z.
Proof. subst ex e a. unfold binary64_exponent. lia. Qed.

Lemma binary64_half_ulp : r - x <= (1 # 2) * s /\ x - r <= (1 # 2) * s.
Proof. apply binary64_value_near. Qed.

Lemma binary64_in_range_finite : a <= hi64 -> Qabs r < pow2 1024.
Proof.
  intros Ha. destruct binary64_abs_bounds as [He1 He2]. destruct binary64_half_ulp as [Hr1 Hr2].
  assert (e < 1024)%Z as He.
  { apply pow2_lt_inv. pose proof hi64_below. pose proof (pow2_pos 970). lra. }
  assert (s <= pow2 971) as Hs.
  { subst s. apply pow2_le. destruct binary64_exponent_cases; lia. }
  assert (pow2 971 == 2 * pow2 970) as H971 by closed_Q.
  pose proof hi64_below as Hhi.
  apply Qabs_Qlt_condition.
  subst a. revert Ha. apply Qabs_case; intros; split; lra.
Qed.

Lemma binary64_accurate :
  exists d t, r == x * (1 + d) + t
              /\ - u64 <= d /\ d <= u64 /\ - eta64 <= t /\ t <= eta64.
Proof.
  destruct binary64_abs_bounds as [He1 He2]. destruct binary64_half_ulp as [Hr1 Hr2].
  pose proof binary64_abs_pos as Ha.
  destruct binary64_exponent_cases as [[Hex Hn] | [Hex Hn]].
  - exists ((r - x) / x), 0.
    split; [field; exact Hx|].
    assert (Qabs ((r - x) / x) <= u64) as Hd.
    { unfold Qdiv. rewrite Qabs_Qmult, Qabs_Qinv. fold a.
      apply Qle_shift_div_r; [exact Ha|].
      assert ((1 # 2) * s <= u64 * a) as Hs.
      { subst s. rewrite Hex. rewrite <- pow2_53.
        assert (0 < u64) by apply pow2_pos. nra. }
      apply Qabs_Qle_condition. split; lra. }
    apply Qabs_Qle_condition in Hd.
    assert (0 < eta64) by apply pow2_pos.
    repeat split; lra.
  - exists 0, (r - x).
    split; [ring|].
    assert ((1 # 2) * s == eta64) as Hs.
    { subst s. rewrite Hex. apply eta64_half. }
    assert (0 < u64) by apply pow2_pos.
    repeat split; lra.
Qed.

Lemma binary64_below_range : x < - hi64 -> r <= - hi64.
Proof.
  intros Hlow. destruct binary64_abs_bounds as [He1 He2].
  pose proof hi64_above as Hhi.
  assert (a == - x) as Hax.
  { subst a. apply Qabs_neg. pose proof (pow2_pos 1023). lra. }
  assert (1023 <= e)%Z as He.
  { assert (pow2 1023 < pow2 (e + 1)) as H by (rewrite pow2_succ; lra).
    apply pow2_lt_inv in H. lia. }
  assert (ex = e - 52)%Z as Hex by (destruct binary64_exponent_cases; lia).
  pose proof (pow2_pos ex) as Hs. fold s in Hs.
  subst r. unfold binary64_value. fold ex. fold s.
  destruct (Z.eq_dec e 1023%Z) as [He' | He'].
  - assert (s == pow2 971) as Hs' by (subst s; rewrite Hex, He'; reflexivity).
    assert (round_half_even (x / s) <= - (2 ^ 53 - 1))%Z as Hn.
    { apply round_half_even_le. apply Qle_shift_div_r; [exact Hs|].
      rewrite inject_Z_opp. unfold hi64 in Hlow. rewrite Hs'. lra. }
    rewrite Zle_Qle, inject_Z_opp in Hn. unfold hi64. rewrite <- Hs'. nra.
  - assert (pow2 1024 <= pow2 e) as He2' by (apply pow2_le; lia).
    assert (hi64 < pow2 1024) as Hhi'.
    { pose proof hi64_below. pose proof (pow2_pos 970). lra. }
    assert (pow2 e == inject_Z (2 ^ 52) * s) as He52.
    { subst s. rewrite Hex. apply pow2_52. }
    assert (round_half_even (x / s) <= - 2 ^ 52)%Z as Hn.
    { apply round_half_even_le. apply Qle_shift_div_r; [exact Hs|].
      rewrite inject_Z_opp. lra. }
    rewrite Zle_Qle, inject_Z_opp in Hn. nra.
Qed.

Lemma binary64_above_range : hi64 < x -> hi64 <= r.
Proof.
  intros Hup. destruct binary64_abs_bounds as [He1 He2].
  pose proof hi64_above as Hhi.
  assert (a == x) as Hax.
  { subst a. apply Qabs_pos. pose proof (pow2_pos 1023). lra. }
  assert (1023 <= e)%Z as He.
  { assert (pow2 1023 < pow2 (e + 1)) as H by (rewrite pow2_succ; lra).
    apply pow2_lt_inv in H. lia. }
  assert (ex = e - 52)%Z as Hex by (destruct binary64_exponent_cases; lia).
  pose proof (pow2_pos ex) as Hs. fold s in Hs.
  subst r. unfold binary64_value. fold ex. fold s.
  destruct (Z.eq_dec e 1023%Z) as [He' | He'].
  - assert (s == pow2 971) as Hs' by (subst s; rewrite Hex, He'; reflexivity).
    assert (2 ^ 53 - 1 <= round_half_even (x / s))%Z as Hn.
    { apply round_half_even_ge. apply Qle_shift_div_l; [exact Hs|].
      unfold hi64 in Hup. rewrite Hs'. lra. }
    rewrite Zle_Qle in Hn. unfold hi64. rewrite <- Hs'. nra.
  - assert (pow2 1024 <= pow2 e) as He2' by (apply pow2_le; lia).
    assert (hi64 < pow2 1024) as Hhi'.
    { pose proof hi64_below. pose proof (pow2_pos 970). lra. }
    assert (pow2 e == inject_Z (2 ^ 52) * s) as He52.
    { subst s. rewrite Hex. apply pow2_52. }
    assert (2 ^ 52 <= round_half_even (x / s))%Z as Hn.
    { apply round_half_even_ge. apply Qle_shift_div_l; [exact Hs|]. lra. }
    rewrite Zle_Qle in Hn. nra.
Qed.
End binary64_of.
End binary64_rounding.

(** The rounding of binary64 is a rounding to nearest in the sense of
    [rounds_to_nearest], with unit roundoff [2^-53], underflow unit
    [2^-1075] and largest finite value [(2^53 - 1) * 2^971]. *)
Lemma binary64_rounds :
  rounds_to_nearest binary64 (Q2Qc u64) (Q2Qc eta64) (Q2Qc hi64).
Proof.
  split; [|split].
  - intros q Hlo Hup. unfold binary64.
    destruct (Qeq_bool q 0) eqn:H0.
    + exists q, 0, 0. split; [done|]. split; [ring|].
      repeat split; apply (bool_decide_unpack _); vm_compute; exact I.
    + apply Qeq_bool_neq in H0.
      assert (Qabs q <= hi64)%Q as Habs.
      { apply Qabs_Qle_condition. revert Hlo Hup. unfold Qcle.
        cbn [this Qcopp Q2Qc]. rewrite !Qred_correct. tauto. }
      pose proof (binary64_in_range_finite q H0 Habs) as Hfin.
      destruct (Qle_bool (pow2 1024) (Qabs (binary64_value q))) eqn:Hov.
      { apply Qle_bool_iff in Hov. exfalso. by apply Qlt_not_le in Hfin. }
      destruct (binary64_accurate q H0) as (d & t & Heq & Hd1 & Hd2 & Ht1 & Ht2).
      exists (Q2Qc (binary64_value q)), (Q2Qc d), (Q2Qc t).
      split; [done|]. split.
      { apply Qc_is_canon. cbn [this Qcplus Qcmult Q2Qc].
        rewrite !Qred_correct. exact Heq. }
      unfold Qcle. cbn [this Qcopp Q2Qc]. rewrite !Qred_correct. tauto.
  - intros q Hq. unfold binary64.
    assert (q < - hi64)%Q as Hq'.
    { revert Hq. unfold Qclt. cbn [this Qcopp Q2Qc]. by rewrite !Qred_correct. }
    assert (0 <= hi64)%Q as Hhi by (apply Qle_alt; vm_compute; discriminate).
    destruct (Qeq_bool q 0) eqn:H0.
    { apply Qeq_bool_iff in H0. exfalso. revert Hq' Hhi H0. clear. intros. lra. }
    apply Qeq_bool_neq in H0.
    destruct (Qle_bool (pow2 1024) (Qabs (binary64_value q))).
    + destruct (Qle_bool 0 q) eqn:Hpos; [|done].
      apply Qle_bool_iff in Hpos. exfalso. revert Hq' Hhi Hpos. clear. intros. lra.
    + apply fle_Fin. unfold Qcle. cbn [this Qcopp Q2Qc]. rewrite !Qred_correct.
      by apply binary64_below_range.
  - intros q Hq. unfold binary64.
    assert (hi64 < q)%Q as Hq'.
    { revert Hq. unfold Qclt. cbn [this Q2Qc]. by rewrite !Qred_correct. }
    assert (0 <= hi64)%Q as Hhi by (apply Qle_alt; vm_compute; discriminate).
    destruct (Qeq_bool q 0) eqn:H0.
    { apply Qeq_bool_iff in H0. exfalso. revert Hq' Hhi H0. clear. intros. lra. }
    apply Qeq_bool_neq in H0.
    destruct (Qle_bool (pow2 1024) (Qabs (binary64_value q))).
    + destruct (Qle_bool 0 q) eqn:Hpos; [done|].
      assert (0 <= q)%Q as Hq0 by (revert Hq' Hhi; clear; intros; lra).
      apply Qle_bool_iff in Hq0. congruence.
    + apply fle_Fin. unfold Qcle. cbn [this Q2Qc]. rewrite !Qred_correct.
      by apply binary64_above_range.
Qed.

Lemma volume_fractions_sum_to_one_witness :
  ∃ v s,
    rounded.volume_fractions binary64
      {[ "vp" := binary64 (Q2Qc (3 # 10)); "ve" := binary64 (Q2Qc (6 # 10)) ]}
      fzero
    = Ok v
    ∧ v = compartment.mk
            (Fin (Q2Qc (5404319552844595 # 18014398509481984)))
            (Fin (Q2Qc (5404319552844595 # 9007199254740992)))
            (Fin (Q2Qc (900719925474099 # 9007199254740992)))
    ∧ rounded.add binary64
        (rounded.add binary64 (compartment.b v) (compartment.e v))
        (compartment.i v)
      = Fin s
    ∧ s = Q2Qc (9007199254740991 # 9007199254740992)
    ∧ 1 - Q2Qc 6 * (Q2Qc u64 + Q2Qc eta64) ≤ s
    ∧ s ≤ 1 + Q2Qc 6 * (Q2Qc u64 + Q2Qc eta64).
Proof.
  eexists.
  edestruct (volume_fractions_sum_to_one binary64 (Q2Qc u64) (Q2Qc eta64)
               (Q2Qc hi64)
               {[ "vp" := binary64 (Q2Qc (3 # 10));
                  "ve" := binary64 (Q2Qc (6 # 10)) ]} fzero)
    as (vb & ve & vi & s & _ & _ & _ & _ & _ & Hs & Hlo & Hup).
  - exact binary64_rounds.
  - apply (bool_decide_unpack _). vm_compute. exact I.
  - apply (bool_decide_unpack _). vm_compute. exact I.
  - apply (bool_decide_unpack _). vm_compute. exact I.
  - apply (bool_decide_unpack _). vm_compute. exact I.
  - vm_compute. reflexivity.
  - vm_compute. reflexivity.
  - vm_compute. reflexivity.
  - vm_compute. reflexivity.
  - exists s. split; [reflexivity|].
    split; [apply (bool_decide_unpack _); vm_compute; exact I|].
    split; [exact Hs|]. split; [|split; [exact Hlo | exact Hup]].
    assert (Fin s = Fin (Q2Qc (9007199254740991 # 9007199254740992))) as Heq.
    { rewrite <- Hs. apply (bool_decide_unpack _). vm_compute. exact I. }
    congruence.
Defined.

(** ** [minimize_global] *)

Lemma mapM_fmap {A B B'} (f : A → result B) (g : B → B') l :
  mapM (λ x, g <$> f x) l = map g <$> mapM f l.
Proof.
  induction l as [|x l IH]; [done|].
  rewrite !mapM_cons, IH. destruct (f x); [|done]. simpl_result.
  by destruct (mapM f l).
Qed.

Lemma Forall2_lookup_l_Ok {A B} (f : A → result B) l k i x :
  Forall2 (λ x y, f x = Ok y) l k → l !! i = Some x →
  ∃ y, k !! i = Some y ∧ f x = Ok y.
Proof. intros H Hx. by eapply Forall2_lookup_l in H. Qed.

(** What [minimize_global] returns on the list of the local results:
    the result at the first position whose cost equals the cost that
    [min] selects. *)
Lemma minimize_global_select {K} (minimize : minimizer K) cost x_0_all kwargs
    results :
  mapM (λ x_0, minimize cost x_0 kwargs) x_0_all = Ok results →
  results ≠ [] →
  ∃ idx best v,
    minimize_global minimize cost x_0_all kwargs = Ok best
    ∧ results !! idx = Some best
    ∧ OptimizeResult.fun_ best = v
    ∧ (∃ j, py_min_pos (map OptimizeResult.fun_ results) = Ok (j, v))
    ∧ ∀ i r, (i < idx)%nat → results !! i = Some r →
        feqb (OptimizeResult.fun_ r) v = false.
Proof.
  intros Hres Hne. unfold minimize_global. rewrite Hres. simpl_result.
  set (costs := map OptimizeResult.fun_ results).
  destruct costs as [|c0 cs] eqn:Hcosts.
  { destruct results; [done | discriminate Hcosts]. }
  cbn [py_min_pos]. simpl_result.
  pose proof (min_pos_from_lookup (c0 :: cs) cs 0 c0 1 eq_refl eq_refl) as Hlook.
  destruct (min_pos_from 0 c0 1 cs) as [j v] eqn:Hmin. cbn [fst snd] in Hlook.
  destruct (index_from_spec (c0 :: cs) 0 j v) as (d & w & Hidx & Hw & Hsame & Hfirst);
    [lia | by rewrite Nat.sub_0_r |].
  unfold py_index. cbn [fst snd]. rewrite Hidx. simpl_result. cbn [Nat.add].
  rewrite <- Hcosts in Hw, Hfirst. unfold costs in Hw, Hfirst.
  rewrite list_lookup_fmap in Hw.
  destruct (results !! d) as [best|] eqn:Hbest; [|done].
  exists d, best, v. split; [done|]. split; [done|].
  injection Hw as Hw. split.
  - destruct Hsame as [Hd | Heq].
    + cbn [Nat.add] in Hd. subst d. rewrite <- Hcosts in Hlook. unfold costs in Hlook.
      rewrite list_lookup_fmap, Hbest in Hlook. by injection Hlook.
    + apply feqb_eq in Heq. congruence.
  - split; [by exists j|]. intros i r Hi Hr. apply (Hfirst i); [done|].
    by rewrite list_lookup_fmap, Hr.
Qed.

(** C4, as the code has it.  When no local result has a [nan] cost,
    [minimize_global] returns the result of one of the starts, its cost is
    [<=] the cost reached from every single start, and every earlier start
    reached a strictly higher cost: among the starts of minimal cost the
    first one wins. *)
Theorem minimize_global_best_of_N {K} (minimize : minimizer K)
    (cost : cost_fn) (x_0_all : list (list fnum)) (kwargs : K) :
  x_0_all ≠ [] →
  (∀ x_0, x_0 ∈ x_0_all →
     ∃ r, minimize cost x_0 kwargs = Ok r ∧ OptimizeResult.fun_ r ≠ NaN) →
  ∃ idx x_best best,
    minimize_global minimize cost x_0_all kwargs = Ok best
    ∧ x_0_all !! idx = Some x_best
    ∧ minimize cost x_best kwargs = Ok best
    ∧ (∀ x_0 r, x_0 ∈ x_0_all → minimize cost x_0 kwargs = Ok r →
         fle (OptimizeResult.fun_ best) (OptimizeResult.fun_ r) = true)
    ∧ (∀ j x_0 r, (j < idx)%nat → x_0_all !! j = Some x_0 →
         minimize cost x_0 kwargs = Ok r →
         flt (OptimizeResult.fun_ best) (OptimizeResult.fun_ r) = true).
Proof.
  intros Hne Hall.
  destruct (mapM_total (λ x_0, minimize cost x_0 kwargs) x_0_all) as [results Hres].
  { apply Forall_forall. intros x_0 Hx. destruct (Hall x_0 Hx) as (r & -> & _). tauto. }
  pose proof Hres as HF. apply mapM_Ok_Forall2 in HF.
  assert (results ≠ []) as Hrne.
  { intros ->. apply Forall2_nil_inv_r in HF. done. }
  destruct (minimize_global_select minimize cost x_0_all kwargs results Hres Hrne)
    as (idx & best & v & Hmg & Hbest & Hv & [j Hmin] & Hfirst).
  assert (Forall (λ y, y ≠ NaN) (map OptimizeResult.fun_ results)) as Hnan.
  { apply Forall_map, Forall_forall. intros r Hr.
    apply list_elem_of_lookup in Hr as [i Hr].
    destruct (Forall2_lookup_r _ _ _ _ _ HF Hr) as (x_0 & Hx & Hm).
    destruct (Hall x_0) as (r' & Hm' & Hr'); [by eapply list_elem_of_lookup_2|].
    cbn beta in Hm. congruence. }
  assert (∀ r, r ∈ results → fle v (OptimizeResult.fun_ r) = true) as Hle.
  { destruct results as [|r0 rs]; [done|]. cbn [map py_min_pos] in Hmin, Hnan.
    injection Hmin as Hmin. inversion_clear Hnan as [|? ? Hr0 Hrs].
    destruct (min_pos_from_le (map OptimizeResult.fun_ rs) 0 (OptimizeResult.fun_ r0) 1
                Hr0 Hrs) as (_ & H0 & Hrest).
    rewrite Hmin in H0, Hrest. cbn [snd] in H0, Hrest.
    intros r Hr. apply elem_of_cons in Hr as [-> | Hr]; [done|].
    rewrite Forall_map, Forall_forall in Hrest. by apply Hrest. }
  destruct (Forall2_lookup_r _ _ _ _ _ HF Hbest) as (x_best & Hxb & Hmb).
  exists idx, x_best, best. split; [done|]. split; [done|]. split; [done|].
  rewrite Hv. split.
  - intros x_0 r Hx Hm. apply Hle.
    apply list_elem_of_lookup in Hx as [i Hx].
    destruct (Forall2_lookup_l _ _ _ _ _ HF Hx) as (r' & Hr' & Hm').
    cbn beta in Hm'. assert (r' = r) as -> by congruence.
    by eapply list_elem_of_lookup_2.
  - intros i x_0 r Hi Hx Hm.
    destruct (Forall2_lookup_l _ _ _ _ _ HF Hx) as (r' & Hr' & Hm').
    cbn beta in Hm'. assert (r' = r) as -> by congruence.
    pose proof (Hfirst i r Hi Hr') as Hneq.
    pose proof (Hle r ltac:(by eapply list_elem_of_lookup_2)) as Hler.
    unfold fle in Hler. apply orb_true_iff in Hler as [Hlt | Heq]; [done|].
    destruct v, (OptimizeResult.fun_ r); simpl in *;
      rewrite ?bool_decide_eq_true, ?bool_decide_eq_false in *; congruence.
Qed.

Lemma minimize_global_best_of_N_witness :
  ∃ best, minimize_global minimize_at_start first_coordinate
            [[fz 3]; [fz 1]; [fz 2]; [fz 1]] tt = Ok best
          ∧ fle (OptimizeResult.fun_ best) (fz 2) = true.
Proof.
  destruct (minimize_global_best_of_N minimize_at_start first_coordinate
              [[fz 3]; [fz 1]; [fz 2]; [fz 1]] tt)
    as (idx & x_best & best & Hmg & _ & _ & Hle & _).
  - discriminate.
  - intros x_0 Hx. repeat (apply elem_of_cons in Hx as [-> | Hx]);
      [eexists; split; [reflexivity | discriminate] .. | by apply elem_of_nil in Hx].
  - exists best. split; [exact Hmg|].
    apply (Hle [fz 2] (OptimizeResult.mk [fz 2] (fz 2) true)); [|reflexivity].
    apply (bool_decide_unpack _). vm_compute. exact I.
Defined.

(** C4, as the claim has it, fails: when the first start ends on a [nan]
    cost, [min] keeps it, and the result returned has a cost that is not
    [<=] the cost reached from the second start. *)
Lemma minimize_global_nan_cost_counterexample :
  minimize_global minimize_at_start ratio_cost [[fz 0]; [fz 1]] tt
    = Ok (OptimizeResult.mk [fz 0] NaN true)
  ∧ minimize_at_start ratio_cost [fz 1] tt
    = Ok (OptimizeResult.mk [fz 1] fone true)
  ∧ fle NaN fone = false.
Proof. repeat split; by_eval. Qed.

Lemma set_success_fun_ flag r :
  OptimizeResult.fun_ (OptimizeResult.set_success flag r) = OptimizeResult.fun_ r.
Proof. reflexivity. Qed.

Lemma minimize_global_with_success {K} (minimize : minimizer K) cost x_0_all
    kwargs flag :
  minimize_global (with_success flag minimize) cost x_0_all kwargs
  = OptimizeResult.set_success flag <$> minimize_global minimize cost x_0_all kwargs.
Proof.
  unfold minimize_global, with_success. rewrite mapM_fmap.
  destruct (mapM _ x_0_all) as [results|]; [|done]. simpl_result.
  rewrite <- list_fmap_compose.
  replace (map (OptimizeResult.fun_ ∘ OptimizeResult.set_success flag) results)
    with (map OptimizeResult.fun_ results) by (by apply map_ext).
  destruct (py_min_pos _) as [jv|]; [|done]. simpl_result.
  destruct (py_index jv _) as [idx|]; [|done]. simpl_result.
  rewrite list_lookup_fmap. by destruct (results !! idx).
Qed.

Lemma minimize_global_no_guess {K} (minimize : minimizer K) cost kwargs :
  minimize_global minimize cost [] kwargs = Raise ValueError.
Proof. reflexivity. Qed.

Lemma minimize_global_local_raise {K} (minimize : minimizer K) cost x_0_all
    kwargs x_0 :
  x_0 ∈ x_0_all → raises (minimize cost x_0 kwargs) →
  raises (minimize_global minimize cost x_0_all kwargs).
Proof.
  intros Hin Hraise. unfold minimize_global.
  pose proof (mapM_raises (λ x_0, minimize cost x_0 kwargs) x_0_all x_0 Hin Hraise).
  by destruct (mapM _ x_0_all).
Qed.

(** What [min] and [list.index] select when no cost is [nan]: a lowest
    cost, at the first position that holds it. *)
Lemma minimize_global_first_lowest {K} (minimize : minimizer K) cost x_0_all
    kwargs results idx best j :
  mapM (λ x_0, minimize cost x_0 kwargs) x_0_all = Ok results →
  results !! idx = Some best →
  py_min_pos (map OptimizeResult.fun_ results)
  = Ok (j, OptimizeResult.fun_ best) →
  (∀ i r, (i < idx)%nat → results !! i = Some r →
     feqb (OptimizeResult.fun_ r) (OptimizeResult.fun_ best) = false) →
  (∀ r, r ∈ results → OptimizeResult.fun_ r ≠ NaN) →
  (∀ r, r ∈ results →
     fle (OptimizeResult.fun_ best) (OptimizeResult.fun_ r) = true)
  ∧ (∀ i r, (i < idx)%nat → results !! i = Some r →
       flt (OptimizeResult.fun_ best) (OptimizeResult.fun_ r) = true).
Proof.
  intros Hres Hbest Hmin Hfirst Hnan.
  assert (∀ r, r ∈ results →
            fle (OptimizeResult.fun_ best) (OptimizeResult.fun_ r) = true) as Hle.
  { destruct results as [|r0 rs]; [done|]. cbn [map py_min_pos] in Hmin.
    injection Hmin as Hmin.
    destruct (min_pos_from_le (map OptimizeResult.fun_ rs) 0
                (OptimizeResult.fun_ r0) 1) as (_ & H0 & Hrest).
    { apply Hnan. by left. }
    { apply Forall_map, Forall_forall. intros r Hr. apply Hnan. by right. }
    rewrite Hmin in H0, Hrest. cbn [snd] in H0, Hrest.
    intros r Hr. apply elem_of_cons in Hr as [-> | Hr]; [done|].
    rewrite Forall_map, Forall_forall in Hrest. by apply Hrest. }
  split; [done|]. intros i r Hi Hr.
  pose proof (Hfirst i r Hi Hr) as Hneq.
  pose proof (Hle r ltac:(by eapply list_elem_of_lookup_2)) as Hler.
  unfold fle in Hler. apply orb_true_iff in Hler as [Hlt | Heq]; [done|].
  destruct (OptimizeResult.fun_ best), (OptimizeResult.fun_ r); simpl in *;
    rewrite ?bool_decide_eq_true, ?bool_decide_eq_false in *; congruence.
Qed.

(** C5, as the code has it.  [minimize_global] never reads the convergence
    flag.  It raises exactly when there is no initial guess or a local
    minimization itself raises.  Otherwise it returns the result of one of
    the starts, chosen by the costs alone: no start, converged or not,
    reached a strictly lower cost, and when no cost is [nan] the result is
    the first one of lowest cost among all the starts.  Had every start
    reported non-convergence, or every start convergence, the same result
    would be returned, with that flag. *)
Theorem minimize_global_ignores_convergence {K} (minimize : minimizer K)
    (cost : cost_fn) (x_0_all : list (list fnum)) (kwargs : K) :
  (raises (minimize_global minimize cost x_0_all kwargs)
   ↔ x_0_all = []
     ∨ ∃ x_0, x_0 ∈ x_0_all ∧ raises (minimize cost x_0 kwargs))
  ∧ ∀ best,
      minimize_global minimize cost x_0_all kwargs = Ok best →
      ∃ idx x_best,
        x_0_all !! idx = Some x_best
        ∧ minimize cost x_best kwargs = Ok best
        ∧ (∀ x_0 r, x_0 ∈ x_0_all → minimize cost x_0 kwargs = Ok r →
             flt (OptimizeResult.fun_ r) (OptimizeResult.fun_ best) = false)
        ∧ ((∀ x_0 r, x_0 ∈ x_0_all → minimize cost x_0 kwargs = Ok r →
              OptimizeResult.fun_ r ≠ NaN) →
           (∀ x_0 r, x_0 ∈ x_0_all → minimize cost x_0 kwargs = Ok r →
              fle (OptimizeResult.fun_ best) (OptimizeResult.fun_ r) = true)
           ∧ (∀ j x_0 r, (j < idx)%nat → x_0_all !! j = Some x_0 →
                minimize cost x_0 kwargs = Ok r →
                flt (OptimizeResult.fun_ best) (OptimizeResult.fun_ r) = true))
        ∧ (∀ flag,
             minimize_global (with_success flag minimize) cost x_0_all kwargs
             = Ok (OptimizeResult.set_success flag best)).
Proof.
  split.
  - split.
    + intros Hr. destruct (decide (x_0_all = [])) as [|Hne]; [by left|]. right.
      destruct (decide (Exists (λ x_0, raises (minimize cost x_0 kwargs)) x_0_all))
        as [Hex|Hnex]; [by apply Exists_exists in Hex|]. exfalso.
      assert (Forall (λ x_0, ¬ raises (minimize cost x_0 kwargs)) x_0_all) as Hall.
      { apply Forall_forall. intros x_0 Hx Hrx. apply Hnex, Exists_exists. eauto. }
      destruct (mapM_total (λ x_0, minimize cost x_0 kwargs) x_0_all Hall)
        as [results Hres].
      assert (results ≠ []) as Hrne.
      { intros ->. apply mapM_Ok_Forall2, Forall2_nil_inv_r in Hres. done. }
      destruct (minimize_global_select minimize cost x_0_all kwargs results
                  Hres Hrne) as (? & ? & ? & Hmg & _).
      by rewrite Hmg in Hr.
    + intros [-> | (x_0 & Hin & Hx)]; [done|].
      by eapply minimize_global_local_raise.
  - intros best Hmg.
    destruct (minimize_global_Ok_inv _ _ _ _ _ Hmg) as (results & Hres & Hne).
    pose proof Hres as HF. apply mapM_Ok_Forall2 in HF.
    destruct (minimize_global_select minimize cost x_0_all kwargs results Hres Hne)
      as (idx & best' & v & Hmg' & Hbest & Hv & [j Hmin] & Hfirst).
    assert (best' = best) as -> by congruence. subst v.
    destruct (Forall2_lookup_r _ _ _ _ _ HF Hbest) as (x_best & Hxb & Hmb).
    cbn beta in Hmb.
    assert (∀ x_0 r, x_0 ∈ x_0_all → minimize cost x_0 kwargs = Ok r →
              r ∈ results) as Hin.
    { intros x_0 r Hx Hm. apply list_elem_of_lookup in Hx as [i Hx].
      destruct (Forall2_lookup_l _ _ _ _ _ HF Hx) as (r' & Hr' & Hm').
      cbn beta in Hm'. assert (r' = r) as -> by congruence.
      by eapply list_elem_of_lookup_2. }
    exists idx, x_best. split; [done|]. split; [done|]. split; [|split].
    + intros x_0 r Hx Hm.
      pose proof (py_min_pos_not_beaten _ _ _ Hmin) as Hall.
      rewrite Forall_fmap, Forall_forall in Hall. apply Hall. by eapply Hin.
    + intros Hnan.
      destruct (minimize_global_first_lowest minimize cost x_0_all kwargs
                  results idx best j Hres Hbest Hmin Hfirst) as [Hle Hlt].
      { intros r Hr. apply list_elem_of_lookup in Hr as [i Hr].
        destruct (Forall2_lookup_r _ _ _ _ _ HF Hr) as (x_0 & Hx & Hm).
        eapply Hnan; [by eapply list_elem_of_lookup_2 | exact Hm]. }
      split.
      * intros x_0 r Hx Hm. apply Hle. by eapply Hin.
      * intros i x_0 r Hi Hx Hm.
        destruct (Forall2_lookup_l _ _ _ _ _ HF Hx) as (r' & Hr' & Hm').
        cbn beta in Hm'. assert (r' = r) as -> by congruence.
        by eapply Hlt.
    + intros flag. by rewrite minimize_global_with_success, Hmg.
Qed.

Lemma minimize_global_ignores_convergence_witness :
  ∃ idx x_best,
    [[fz 2]; [fz 1]; [fz 1]] !! idx = Some x_best
    ∧ minimize_flagged first_coordinate x_best tt
      = Ok (OptimizeResult.mk [fz 1] (fz 1) false)
    ∧ flt (fz 2) (fz 1) = false
    ∧ minimize_global (with_success true minimize_flagged) first_coordinate
        [[fz 2]; [fz 1]; [fz 1]] tt
      = Ok (OptimizeResult.mk [fz 1] (fz 1) true).
Proof.
  destruct (minimize_global_ignores_convergence minimize_flagged
              first_coordinate [[fz 2]; [fz 1]; [fz 1]] tt) as [_ Hret].
  destruct (Hret (OptimizeResult.mk [fz 1] (fz 1) false))
    as (idx & x_best & Hidx & Hbest & Hlow & _ & Hflag).
  - apply (bool_decide_unpack _). vm_compute. exact I.
  - exists idx, x_best. split; [exact Hidx|]. split; [exact Hbest|].
    split; [|exact (Hflag true)].
    apply (Hlow [fz 2] (OptimizeResult.mk [fz 2] (fz 2) true)).
    + apply (bool_decide_unpack _). vm_compute. exact I.
    + apply (bool_decide_unpack _). vm_compute. exact I.
Defined.

(** C5, as the claim has it, fails: with one start that did not converge
    (cost 1) and one that did (cost 2), the start that did not converge is
    returned; and when the only start did not converge, its result is
    returned and nothing is raised. *)
Lemma minimize_global_convergence_counterexample :
  minimize_global minimize_flagged first_coordinate [[fz 1]; [fz 2]] tt
    = Ok (OptimizeResult.mk [fz 1] (fz 1) false)
  ∧ minimize_flagged first_coordinate [fz 2] tt
    = Ok (OptimizeResult.mk [fz 2] (fz 2) true)
  ∧ minimize_global minimize_flagged first_coordinate [[fz 1]] tt
    = Ok (OptimizeResult.mk [fz 1] (fz 1) false).
Proof. repeat split; by_eval. Qed.

(** ** [pkp_to_enh] *)

Lemma pkp_to_enh_stages {C} pk_pars hct k R10_tissue R10_blood
    (pk_model : pk_model.t C) c_to_r_model water_ex_model signal_model
    v R10 C_t C_cp C_e :
  volume_fractions pk_pars hct = Ok v →
  compartment_R10 v R10_tissue R10_blood = Ok R10 →
  pk_model.conc pk_model (Keyword pk_pars) = (C_t, C_cp, C_e) →
  pkp_to_enh pk_pars hct k R10_tissue R10_blood pk_model c_to_r_model
    water_ex_model signal_model
  = c ← compartment_conc v C_cp C_e;
    enh_of_R1 water_ex_model signal_model k v R10
      (compartment_R1 c_to_r_model R10 c).
Proof.
  intros Hv HR10 Hconc. unfold pkp_to_enh, enh_of_R1.
  rewrite Hv. simpl_result. rewrite HR10. simpl_result. rewrite Hconc.
  destruct (water_ex_model.R1_components water_ex_model v _) as [R10c p0c].
  destruct (compartment_conc v C_cp C_e) as [c|]; [|done]. simpl_result.
  by destruct (water_ex_model.R1_components water_ex_model v _).
Qed.

Lemma compartment_conc_arrays v (C_cp C_e : list fnum) :
  compartment_conc v (NpArray C_cp) (NpArray C_e)
  = Ok (compartment.mk
          (NpArray (map (λ x, fdiv x (compartment.b v)) C_cp))
          (NpArray (map (λ x, fdiv x (compartment.e v)) C_e))
          (NpArray (replicate (length C_e) fzero))).
Proof. reflexivity. Qed.

(** Which operations can raise [ZeroDivisionError]. *)

Lemma no_zde_bind {A B} (m : result A) (f : A → result B) :
  no_zde m → (∀ a, m = Ok a → no_zde (f a)) → no_zde (m ≫= f).
Proof.
  unfold no_zde. destruct m as [a|err]; simpl_result; [eauto|].
  intros H _. congruence.
Qed.

Lemma no_zde_mapM {A B} (f : A → result B) l :
  (∀ x, no_zde (f x)) → no_zde (mapM f l).
Proof.
  intros Hf. induction l as [|x l IH]; [done|].
  rewrite mapM_cons. apply no_zde_bind; [done|]. intros y _.
  apply no_zde_bind; [done|]. done.
Qed.

Lemma no_zde_np_binop f a b : no_zde (np_binop f a b).
Proof.
  unfold no_zde. destruct a, b; simpl; try done.
  unfold broadcast. case_bool_decide; [done|].
  destruct xs as [|? [|? ?]], xs0 as [|? [|? ?]]; done.
Qed.

Lemma no_zde_add_rows rows acc : no_zde (add_rows acc rows).
Proof.
  revert acc. induction rows as [|row rows IH]; intros acc; [done|].
  simpl. apply no_zde_bind; [|by intros].
  unfold no_zde. destruct acc, row; simpl; try done. by case_bool_decide.
Qed.

Lemma add_rows_is_numpy rows acc a :
  is_numpy acc → add_rows acc rows = Ok a → is_numpy a.
Proof.
  revert acc. induction rows as [|row rows IH]; intros acc Hacc; simpl.
  - by intros [= <-].
  - destruct (add_row acc row) as [acc'|] eqn:Hrow; [|done]. simpl_result.
    apply IH. destruct acc, row; simpl in Hrow; try done;
      try case_bool_decide; by simplify_eq.
Qed.

Lemma weighted_signal_is_numpy signal_model k comps ws a :
  weighted_signal signal_model k comps ws = Ok a → is_numpy a.
Proof.
  unfold weighted_signal. destruct (mapM _ _) as [rows|]; [|done]. simpl_result.
  destruct rows as [|[x|x|xs] rows]; simpl.
  - by intros [= <-].
  - by apply add_rows_is_numpy.
  - by apply add_rows_is_numpy.
  - by apply add_rows_is_numpy.
Qed.

Lemma no_zde_weighted_signal signal_model k comps ws :
  no_zde (weighted_signal signal_model k comps ws).
Proof.
  unfold weighted_signal. apply no_zde_bind.
  - apply no_zde_mapM. intros [i p]. unfold component_signal. cbn [fst snd].
    destruct (comps !! i); [apply no_zde_np_binop | done].
  - intros rows _. destruct rows as [|[x|x|xs] rows]; simpl;
      [done | apply no_zde_add_rows ..].
Qed.

Lemma np_binop_is_numpy f a b r :
  is_numpy a → np_binop f a b = Ok r → is_numpy r.
Proof.
  destruct a, b; simpl; try done; try (by intros _ [= <-]).
  intros _. by destruct (broadcast f xs xs0); intros [= <-].
Qed.

Lemma np_binop_is_numpy_r f a b r :
  is_numpy b → np_binop f a b = Ok r → is_numpy r.
Proof.
  destruct a, b; simpl; try done; try (by intros _ [= <-]).
  intros _. by destruct (broadcast f xs xs0); intros [= <-].
Qed.

Lemma no_zde_np_div_numpy a b : is_numpy b → no_zde (np_div a b).
Proof.
  unfold np_div. destruct a, b; try done; intros _; apply no_zde_np_binop.
Qed.

Lemma no_zde_enh_of_R1 water_ex_model signal_model k p R10 R1 :
  no_zde (enh_of_R1 water_ex_model signal_model k p R10 R1).
Proof.
  unfold enh_of_R1.
  destruct (water_ex_model.R1_components water_ex_model p _) as [R10c p0c].
  destruct (water_ex_model.R1_components water_ex_model p R1) as [R1c pc].
  apply no_zde_bind; [apply no_zde_weighted_signal|]. intros s_pre Hpre.
  apply no_zde_bind; [apply no_zde_weighted_signal|]. intros s_post _.
  apply no_zde_bind; [apply no_zde_np_binop|]. intros d _.
  apply no_zde_bind; [apply no_zde_np_binop|]. intros m _.
  apply no_zde_np_div_numpy. by eapply weighted_signal_is_numpy.
Qed.

Lemma fone_minus_zero_nonzero : feqb (fsub fone fzero) fzero = false.
Proof. by_eval. Qed.

Lemma compartment_R10_Ok p R10_tissue R10_blood R10 :
  compartment_R10 p R10_tissue R10_blood = Ok R10 →
  let R10_extravasc :=
    fdiv (fsub R10_tissue (fmul (compartment.b p) R10_blood))
         (fsub fone (compartment.b p)) in
  R10 = compartment.mk R10_blood R10_extravasc R10_extravasc.
Proof.
  unfold compartment_R10, py_div.
  destruct (feqb (fsub fone (compartment.b p)) fzero); [done|].
  simpl_result. by intros [= <-].
Qed.

(** C9. [pkp_to_enh] divides the plasma series by the blood fraction, the
    extravascular series by the extracellular fraction, and the
    extravascular pre-contrast rate by one minus the blood fraction, and
    what it returns is computed from these three quotients.  No divisor is
    checked.  A zero blood fraction makes every sample of the blood
    concentration a [nan] or an infinity, and so does a zero extracellular
    fraction for the extracellular concentration; with a blood fraction of
    one the divisor of the pre-contrast rate is zero and no finite rate
    comes out of the division (the quotient is an infinity or [nan] where
    it is computed, and nothing is returned where the division raises).
    Without the key ['vp'] the blood fraction is
    zero, the division by it raises nothing, and [pkp_to_enh] goes on with
    the non-finite concentration: it does not end in
    [ZeroDivisionError]. *)
Theorem pkp_to_enh_divides_by_volume_fractions {C}
    (pk_pars : gmap string fnum) (hct k R10_tissue R10_blood : fnum)
    (pk_model : pk_model.t C) (c_to_r_model : c_to_r_model.t)
    (water_ex_model : water_ex_model.t) (signal_model : signal_model.t)
    (v : compartment.t fnum) (C_t : npval) (C_cp C_e : list fnum) :
  volume_fractions pk_pars hct = Ok v →
  pk_model.conc pk_model (Keyword pk_pars) = (C_t, NpArray C_cp, NpArray C_e) →
  let c_b := map (λ x, fdiv x (compartment.b v)) C_cp in
  let c_e := map (λ x, fdiv x (compartment.e v)) C_e in
  let c := compartment.mk (NpArray c_b) (NpArray c_e)
             (NpArray (replicate (length C_e) fzero)) in
  let R10_extravasc :=
    fdiv (fsub R10_tissue (fmul (compartment.b v) R10_blood))
         (fsub fone (compartment.b v)) in
  let enh := pkp_to_enh pk_pars hct k R10_tissue R10_blood pk_model
               c_to_r_model water_ex_model signal_model in
  (∀ R10, compartment_R10 v R10_tissue R10_blood = Ok R10 →
     R10 = compartment.mk R10_blood R10_extravasc R10_extravasc
     ∧ enh = enh_of_R1 water_ex_model signal_model k v R10
               (compartment_R1 c_to_r_model R10 c))
  ∧ (compartment.b v = fzero → Forall (λ x, ¬ is_finite x) c_b)
  ∧ (compartment.e v = fzero → Forall (λ x, ¬ is_finite x) c_e)
  ∧ (compartment.b v = fone →
       fsub fone (compartment.b v) = fzero
       ∧ ¬ is_finite R10_extravasc
       ∧ ∀ R10, compartment_R10 v R10_tissue R10_blood = Ok R10 →
           ¬ is_finite (compartment.e R10))
  ∧ (pk_pars !! "vp" = None →
       compartment.b v = fzero
       ∧ (∃ R10, compartment_R10 v R10_tissue R10_blood = Ok R10)
       ∧ enh ≠ Raise ZeroDivisionError).
Proof.
  intros Hv Hconc c_b c_e c R10_extravasc enh.
  assert (∀ R10, compartment_R10 v R10_tissue R10_blood = Ok R10 →
            R10 = compartment.mk R10_blood R10_extravasc R10_extravasc
            ∧ enh = enh_of_R1 water_ex_model signal_model k v R10
                      (compartment_R1 c_to_r_model R10 c)) as Htie.
  { intros R10 HR10. split; [by apply compartment_R10_Ok in HR10|].
    subst enh.
    rewrite (pkp_to_enh_stages _ _ _ _ _ _ _ _ _ _ _ _ _ _ Hv HR10 Hconc).
    by rewrite compartment_conc_arrays. }
  split; [exact Htie|]. split; [|split; [|split]].
  - intros Hb. subst c_b. rewrite Hb. apply Forall_map, Forall_forall.
    intros x _. apply fdiv_zero_not_finite.
  - intros He. subst c_e. rewrite He. apply Forall_map, Forall_forall.
    intros x _. apply fdiv_zero_not_finite.
  - intros Hb.
    assert (fsub fone (compartment.b v) = fzero) as Hzero.
    { rewrite Hb. apply (bool_decide_unpack _). vm_compute. exact I. }
    assert (¬ is_finite R10_extravasc) as Hinf.
    { subst R10_extravasc. rewrite Hzero. apply fdiv_zero_not_finite. }
    split; [done|]. split; [done|]. intros R10 HR10.
    destruct (Htie R10 HR10) as [-> _]. exact Hinf.
  - intros Hvp. apply volume_fractions_unfold in Hv as Hv'.
    destruct Hv' as (vb & Hvb & Hveq). rewrite Hvp in Hvb. subst vb.
    assert (compartment.b v = fzero) as Hb.
    { rewrite Hveq. by destruct (pk_pars !! "ve"). }
    split; [done|].
    assert (∃ R10, compartment_R10 v R10_tissue R10_blood = Ok R10) as [R10 HR10].
    { unfold compartment_R10, py_div. rewrite Hb, fone_minus_zero_nonzero.
      simpl_result. eauto. }
    split; [by exists R10|].
    destruct (Htie R10 HR10) as [_ ->]. apply no_zde_enh_of_R1.
Qed.

Lemma pkp_to_enh_divides_by_volume_fractions_witness :
  ∃ v R10,
    volume_fractions {[ "ve" := fq 1 2 ]} (fq 21 50) = Ok v
    ∧ compartment.b v = fzero
    ∧ Forall (λ x, ¬ is_finite x)
        (map (λ x, fdiv x (compartment.b v)) [fq 1 2; fq 1 2])
    ∧ compartment_R10 v fone fone = Ok R10
    ∧ pkp_to_enh {[ "ve" := fq 1 2 ]} (fq 21 50) fone fone fone flat_pk_model
        linear_relaxivity fxl proportional_signal
      = enh_of_R1 fxl proportional_signal fone v R10
          (compartment_R1 linear_relaxivity R10
             (compartment.mk
                (NpArray (map (λ x, fdiv x (compartment.b v)) [fq 1 2; fq 1 2]))
                (NpArray (map (λ x, fdiv x (compartment.e v)) [fz 1; fz 1]))
                (NpArray (replicate 2 fzero))))
    ∧ pkp_to_enh {[ "ve" := fq 1 2 ]} (fq 21 50) fone fone fone flat_pk_model
        linear_relaxivity fxl proportional_signal
      ≠ Raise ZeroDivisionError.
Proof.
  edestruct (pkp_to_enh_divides_by_volume_fractions
               {[ "ve" := fq 1 2 ]} (fq 21 50) fone fone fone flat_pk_model
               linear_relaxivity fxl proportional_signal)
    as (Htie & Hb & _ & _ & Hvp).
  - reflexivity.
  - reflexivity.
  - destruct (Hvp eq_refl) as (Hzero & [R10 HR10] & Hnz).
    eexists _, R10. split; [reflexivity|]. split; [exact Hzero|].
    split; [exact (Hb Hzero)|]. split; [exact HR10|].
    split; [exact (proj2 (Htie R10 HR10)) | exact Hnz].
Defined.

Lemma compartment_R10_intracellular p R10_tissue R10_blood R10 :
  compartment_R10 p R10_tissue R10_blood = Ok R10 →
  compartment.i R10 = compartment.e R10.
Proof.
  unfold compartment_R10. destruct (py_div _ _); [|done]. simpl_result.
  by intros [= <-].
Qed.

Lemma compartment_conc_intracellular v C_cp (C_e : list fnum) c :
  compartment_conc v C_cp (NpArray C_e) = Ok c →
  compartment.i c = NpArray (replicate (length C_e) fzero).
Proof.
  unfold compartment_conc. destruct (np_div C_cp _); [|done]. simpl_result.
  by intros [= <-].
Qed.

(** C10. [pkp_to_enh] gives the intracellular compartment the all-zero
    concentration series, so the intracellular post-contrast R1 handed to
    the water-exchange model is the relaxation model's R1 at concentration
    zero, for the pre-contrast rate of the extravascular space; for a
    relaxation model with [R1(R10, 0) = R10] it is that pre-contrast rate
    at every sample.  This holds whatever the water-exchange model is: the
    model only enters in the steps that follow. *)
Theorem pkp_to_enh_intracellular_R1 {C}
    (pk_pars : gmap string fnum) (hct k R10_tissue R10_blood : fnum)
    (pk_model : pk_model.t C) (c_to_r_model : c_to_r_model.t)
    (water_ex_model : water_ex_model.t) (signal_model : signal_model.t)
    (v R10 : compartment.t fnum) (C_t C_cp : npval) (C_e : list fnum)
    (c : compartment.t npval) :
  volume_fractions pk_pars hct = Ok v →
  compartment_R10 v R10_tissue R10_blood = Ok R10 →
  pk_model.conc pk_model (Keyword pk_pars) = (C_t, C_cp, NpArray C_e) →
  compartment_conc v C_cp (NpArray C_e) = Ok c →
  let zeros := NpArray (replicate (length C_e) fzero) in
  let R1 := compartment_R1 c_to_r_model R10 c in
  compartment.i c = zeros
  ∧ compartment.i R10 = compartment.e R10
  ∧ compartment.i R1
    = c_to_r_model.R1 c_to_r_model (compartment.i R10) zeros
  ∧ pkp_to_enh pk_pars hct k R10_tissue R10_blood pk_model c_to_r_model
      water_ex_model signal_model
    = enh_of_R1 water_ex_model signal_model k v R10 R1
  ∧ ((∀ r n, c_to_r_model.R1 c_to_r_model r (NpArray (replicate n fzero))
             = NpArray (replicate n r)) →
     compartment.i R1
     = NpArray (replicate (length C_e) (compartment.i R10))).
Proof.
  intros Hv HR10 Hconc Hc zeros R1.
  pose proof (compartment_conc_intracellular _ _ _ _ Hc) as Hi.
  split; [done|]. split; [by eapply compartment_R10_intracellular|].
  assert (compartment.i R1
          = c_to_r_model.R1 c_to_r_model (compartment.i R10) zeros) as HR1.
  { subst R1 zeros. unfold compartment_R1. cbn [compartment.i]. by rewrite Hi. }
  split; [done|]. split.
  - rewrite (pkp_to_enh_stages _ _ _ _ _ _ _ _ _ _ _ _ _ _ Hv HR10 Hconc).
    by rewrite Hc.
  - intros Hzero. rewrite HR1. subst zeros. apply Hzero.
Qed.

Lemma pkp_to_enh_intracellular_R1_witness :
  ∃ R10 c,
    compartment_conc (compartment.mk (fq 1 5) (fq 1 2) (fq 3 10))
      (NpArray [fq 1 2; fq 1 2]) (NpArray [fz 1; fz 1]) = Ok c
    ∧ compartment.i (compartment_R1 linear_relaxivity R10 c)
      = c_to_r_model.R1 linear_relaxivity (compartment.i R10)
          (NpArray (replicate 2 fzero)).
Proof.
  edestruct (pkp_to_enh_intracellular_R1
               {[ "vp" := fq 1 10; "ve" := fq 1 2 ]} (fq 1 2) fone fone fone
               flat_pk_model linear_relaxivity nxl proportional_signal
               (compartment.mk (fq 1 5) (fq 1 2) (fq 3 10)))
    as (_ & _ & HR1 & _).
  - apply (bool_decide_unpack _). vm_compute. exact I.
  - reflexivity.
  - reflexivity.
  - reflexivity.
  - eexists _, _. split; [reflexivity | exact HR1].
Defined.

(** The two water-exchange regimes of [r_to_s.py] leave the intracellular
    R1 as it is given to them: with no exchange it is the third component,
    weighted by the intracellular fraction; with fast exchange it enters
    the single component through the population-weighted mean. *)
Lemma nxl_keeps_intracellular_R1 r p r_components p_components :
  r_to_s.r_compartments_to_components_nxl r p = Ok (r_components, p_components) →
  r_to_s.r1 <$> r_components !! 2%nat = Some (r_to_s.r1 (compartment.i r))
  ∧ p_components !! 2%nat = Some (PyFloat (compartment.i p))
  ∧ length r_components = 3%nat.
Proof.
  unfold r_to_s.r_compartments_to_components_nxl.
  destruct (r_to_s.weighted_rate _ _); [|done]. simpl_result.
  by intros [= <- <-].
Qed.

Lemma fxl_merges_compartments r p r_components p_components :
  r_to_s.r_compartments_to_components_fxl r p = Ok (r_components, p_components) →
  ∃ comp, r_components = [comp]
          ∧ r_to_s.weighted_rate p (compartment.map r_to_s.r1 r)
            = Ok (r_to_s.r1 comp)
          ∧ length p_components = 1%nat.
Proof.
  unfold r_to_s.r_compartments_to_components_fxl.
  destruct (r_to_s.weighted_rate p (compartment.map r_to_s.r1 r)) as [m1|]; [|done].
  simpl_result.
  destruct (r_to_s.weighted_rate p (compartment.map r_to_s.r2s r)) as [m2|]; [|done].
  simpl_result. destruct (r_to_s.py_len m1); [|done]. simpl_result.
  intros [= <- <-]. by eexists.
Qed.

(** ** Weights in [conc_to_pkp] and [enh_to_pkp] *)

Lemma nan_where_zero_Ok a weights fit :
  nan_where_zero a weights = Ok fit →
  ∃ M, a = NpArray M ∧ length M = length weights
       ∧ fit = NpArray (nan_at_zero_weights weights M).
Proof.
  destruct a as [?|?|M]; try done. simpl. case_bool_decide; [|done].
  intros [= <-]. by exists M.
Qed.

Lemma nan_at_zero_weights_lookup weights M i w :
  length M = length weights →
  weights !! i = Some w →
  ∃ y, M !! i = Some y
       ∧ nan_at_zero_weights weights M !! i
         = Some (if feqb w fzero then NaN else y).
Proof.
  intros Hlen Hw.
  destruct (lookup_lt_is_Some_2 M i) as [y Hy].
  { rewrite Hlen. by eapply lookup_lt_Some. }
  exists y. split; [done|]. unfold nan_at_zero_weights.
  by rewrite lookup_zip_with, Hw, Hy.
Qed.

(** C8.  The code does not keep a zero-weight sample out of the cost: the
    cost multiplies the squared residual by the weight, and [0 * nan] and
    [0 * inf] are [nan].  With the weights [[0, 1]], the observed series
    [[5, 2]] has cost zero at the parameter 2 and the fit returns 2; with
    [nan] (a missing sample) or [inf] in place of the 5, the cost there is
    [nan] and the fit returns the parameter 1.  The same expression is the
    cost of [enh_to_pkp].  The fitted series does hold [nan] at the
    zero-weight position in each case. *)
Theorem zero_weight_sample_is_not_excluded :
  conc_cost flat_pk_model [fz 5; fz 2] [fz 0; fz 1] [fz 2] = Ok (fz 0)
  ∧ conc_cost flat_pk_model [NaN; fz 2] [fz 0; fz 1] [fz 2] = Ok NaN
  ∧ conc_cost flat_pk_model [PInf; fz 2] [fz 0; fz 1] [fz 2] = Ok NaN
  ∧ conc_to_pkp minimize_two_point flat_pk_model [fz 5; fz 2] None
      (Some [fz 0; fz 1])
    = Ok ({[ "ve" := fz 2 ]}, NpArray [NaN; fz 2])
  ∧ conc_to_pkp minimize_two_point flat_pk_model [NaN; fz 2] None
      (Some [fz 0; fz 1])
    = Ok ({[ "ve" := fz 1 ]}, NpArray [NaN; fz 1])
  ∧ conc_to_pkp minimize_two_point flat_pk_model [PInf; fz 2] None
      (Some [fz 0; fz 1])
    = Ok ({[ "ve" := fz 1 ]}, NpArray [NaN; fz 1])
  ∧ enh_cost plasma_pk_model (fq 1 2) fone fone fone linear_relaxivity nxl
      proportional_signal [fz 7; fz 50] [fz 0; fz 1] [fq 1 4; fq 1 4]
    = Ok (fz 0)
  ∧ enh_cost plasma_pk_model (fq 1 2) fone fone fone linear_relaxivity nxl
      proportional_signal [NaN; fz 50] [fz 0; fz 1] [fq 1 4; fq 1 4]
    = Ok NaN.
Proof. repeat split; by_eval. Qed.

(** ** The round trip through [conc_to_enh] and [enh_to_conc] *)

Lemma Fin_inj a b : Fin a = Fin b → a = b.
Proof.
  intros H.
  exact (f_equal (λ x, match x with Fin q => q | _ => a end) H).
Qed.

Lemma fsub_eq_zero e y : fsub e y = fzero → y = e.
Proof.
  unfold fsub, fzero. destruct e as [a| | |], y as [b| | |]; try done.
  cbn [fneg fadd]. intros H%Fin_inj. f_equal.
  transitivity (a - (a + - b)); [ring | rewrite H; ring].
Qed.

Lemma enh_residual_root k R10 c_to_r_model signal_model e r :
  enh_residual k R10 c_to_r_model signal_model e (NpArray [r])
    = Ok (NpArray [fzero]) →
  conc_to_enh (NpArray [r]) k R10 c_to_r_model signal_model = Ok (NpArray [e]).
Proof.
  unfold enh_residual.
  destruct (conc_to_enh _ _ _ _ _) as [y|]; [|done]. simpl_result.
  destruct y as [y|y|ys]; try done. unfold np_sub. cbn [np_binop].
  destruct ys as [|y [|]]; try done. cbn [map]. intros [= H].
  by rewrite (fsub_eq_zero _ _ H).
Qed.








(** * Further properties *)

(** ** Sums of finite series *)

Lemma foldl_fadd_Fin a qs :
  foldl fadd (Fin a) (Fin <$> qs) = Fin (foldl Qcplus a qs).
Proof. revert a. induction qs as [|q qs IH]; intros a; [done|]. apply IH. Qed.

Lemma fsum_Fin qs : fsum (Fin <$> qs) = Fin (Qc_sum qs).
Proof. apply foldl_fadd_Fin. Qed.

Lemma foldl_Qcplus_shift a qs : foldl Qcplus a qs = a + foldl Qcplus 0 qs.
Proof.
  revert a. induction qs as [|q qs IH]; intros a; simpl; [ring|].
  rewrite (IH (a + q)), (IH (0 + q)). ring.
Qed.

Lemma Qc_sum_cons q qs : Qc_sum (q :: qs) = q + Qc_sum qs.
Proof.
  unfold Qc_sum. simpl. rewrite foldl_Qcplus_shift. ring.
Qed.

(** ** Indexing *)

Lemma np_index_Ok s i :
  in_bounds (length s) i → ∃ x, np_index s i = Ok x ∧ x ∈ s.
Proof.
  unfold in_bounds, np_index. intros Hi. cbn zeta.
  set (j := if bool_decide (i < 0)%Z then (i + Z.of_nat (length s))%Z else i).
  assert (0 ≤ j < Z.of_nat (length s))%Z as Hj.
  { subst j. case_bool_decide; lia. }
  rewrite bool_decide_eq_true_2 by done.
  destruct (lookup_lt_is_Some_2 s (Z.to_nat j)) as [x Hx]; [lia|].
  rewrite Hx. exists x. split; [done|]. by eapply list_elem_of_lookup_2.
Qed.

Lemma np_index_raise s i :
  ¬ in_bounds (length s) i → np_index s i = Raise IndexError.
Proof.
  unfold in_bounds, np_index. intros Hi. cbn zeta.
  rewrite bool_decide_eq_false_2; [done|].
  case_bool_decide; lia.
Qed.

Lemma np_take_Ok s idx :
  Forall (in_bounds (length s)) idx →
  ∃ base, np_take s idx = Ok base ∧ length base = length idx
          ∧ Forall (λ x, x ∈ s) base.
Proof.
  induction 1 as [|i idx Hi _ (base & Hbase & Hlen & Hin)].
  - exists []. by repeat split.
  - destruct (np_index_Ok s i Hi) as (x & Hx & Hxs).
    exists (x :: base). unfold np_take in *. rewrite mapM_cons, Hx, Hbase.
    repeat split; [by simpl; f_equal | by constructor].
Qed.

Lemma np_take_raises s idx :
  raises (np_take s idx) ↔ Exists (λ i, ¬ in_bounds (length s) i) idx.
Proof.
  split.
  - intros Hr. apply not_Forall_Exists; [apply _|]. intros Hall.
    destruct (np_take_Ok s idx) as (base & Hbase & _).
    + eapply Forall_impl; [exact Hall|]. intros i Hi.
      by destruct (decide (in_bounds (length s) i)).
    + by rewrite Hbase in Hr.
  - intros (i & Hin & Hi)%Exists_exists. unfold np_take.
    eapply mapM_raises; [done|]. by rewrite np_index_raise.
Qed.

(** ** More on [sig_to_enh] *)

(** Only [IndexError] leaves [sig_to_enh], and it does so exactly when a
    baseline index lies outside [[-n, n)] for a signal of [n] samples. *)
Theorem sig_to_enh_raises_iff_index_out_of_bounds
    (s : list fnum) (base_idx : list Z) :
  (raises (sig_to_enh s base_idx)
   ↔ Exists (λ i, ¬ in_bounds (length s) i) base_idx)
  ∧ (∀ err, sig_to_enh s base_idx = Raise err → err = IndexError).
Proof.
  split.
  - rewrite <- np_take_raises.
    destruct (np_take s base_idx) as [base|err] eqn:Htake.
    + by rewrite (sig_to_enh_unfold _ _ _ Htake).
    + unfold sig_to_enh. by rewrite Htake.
  - intros err. destruct (np_take s base_idx) as [base|err'] eqn:Htake.
    + by rewrite (sig_to_enh_unfold _ _ _ Htake).
    + unfold sig_to_enh. rewrite Htake. simpl_result. intros [= <-].
      assert (raises (np_take s base_idx)) as Hr by (by rewrite Htake).
      apply np_take_raises, Exists_exists in Hr as (i & Hin & Hi).
      revert Htake. unfold np_take.
      induction base_idx as [|j idx IH]; [by apply elem_of_nil in Hin|].
      rewrite mapM_cons.
      destruct (decide (in_bounds (length s) j)) as [Hj|Hj].
      * destruct (np_index_Ok s j Hj) as (x & -> & _). simpl_result.
        apply elem_of_cons in Hin as [-> | Hin]; [done|].
        destruct (mapM (np_index s) idx) as [|e'] eqn:Hm; [done|].
        simpl_result. intros [= <-]. by apply IH.
      * rewrite (np_index_raise s j Hj). simpl_result. by intros [= <-].
Qed.

(** ** More on [minimize_global] *)

(** Whatever the costs are, [nan] included: when [minimize_global] returns,
    what it returns is the result of one of the starts, and no start reached
    a cost strictly below its cost. *)
Theorem minimize_global_never_beaten {K} (minimize : minimizer K)
    (cost : cost_fn) (x_0_all : list (list fnum)) (kwargs : K)
    (best : OptimizeResult.t) :
  minimize_global minimize cost x_0_all kwargs = Ok best →
  (∃ x_0, x_0 ∈ x_0_all ∧ minimize cost x_0 kwargs = Ok best)
  ∧ ∀ x_0 r, x_0 ∈ x_0_all → minimize cost x_0 kwargs = Ok r →
      flt (OptimizeResult.fun_ r) (OptimizeResult.fun_ best) = false.
Proof.
  intros Hmg.
  destruct (minimize_global_Ok_inv _ _ _ _ _ Hmg) as (results & Hres & Hne).
  pose proof Hres as HF. apply mapM_Ok_Forall2 in HF.
  destruct (minimize_global_select minimize cost x_0_all kwargs results Hres Hne)
    as (idx & best' & v & Hmg' & Hbest & Hv & [j Hmin] & _).
  assert (best' = best) as -> by congruence.
  split.
  - destruct (Forall2_lookup_r _ _ _ _ _ HF Hbest) as (x_0 & Hx & Hm).
    exists x_0. split; [by eapply list_elem_of_lookup_2 | done].
  - intros x_0 r Hx Hm.
    apply list_elem_of_lookup in Hx as [i Hx].
    destruct (Forall2_lookup_l _ _ _ _ _ HF Hx) as (r' & Hr' & Hm').
    cbn beta in Hm'. assert (r' = r) as -> by congruence.
    pose proof (py_min_pos_not_beaten _ _ _ Hmin) as Hall.
    rewrite Forall_fmap, Forall_forall in Hall. rewrite Hv.
    apply Hall. by eapply list_elem_of_lookup_2.
Qed.

Lemma minimize_global_never_beaten_witness :
  (∃ x_0, x_0 ∈ [[fz 0]; [fz 1]; [fz 3]]
          ∧ minimize_at_start ratio_cost x_0 tt
            = Ok (OptimizeResult.mk [fz 0] NaN true))
  ∧ flt (OptimizeResult.fun_ (OptimizeResult.mk [fz 1] fone true)) NaN = false.
Proof.
  destruct (minimize_global_never_beaten minimize_at_start ratio_cost
              [[fz 0]; [fz 1]; [fz 3]] tt
              (OptimizeResult.mk [fz 0] NaN true) eq_refl) as [Hone Hall].
  split; [exact Hone|].
  apply (Hall [fz 1]).
  - apply (bool_decide_unpack _). vm_compute. exact I.
  - apply (bool_decide_unpack _). vm_compute. exact I.
Defined.

(** [minimize_global] raises exactly when there is no initial guess or one
    of the local minimizations raises. *)
Theorem minimize_global_raises_iff {K} (minimize : minimizer K)
    (cost : cost_fn) (x_0_all : list (list fnum)) (kwargs : K) :
  raises (minimize_global minimize cost x_0_all kwargs)
  ↔ x_0_all = []
    ∨ Exists (λ x_0, raises (minimize cost x_0 kwargs)) x_0_all.
Proof.
  split.
  - intros Hr. destruct (decide (x_0_all = [])) as [|Hne]; [by left|]. right.
    destruct (decide (Exists (λ x_0, raises (minimize cost x_0 kwargs)) x_0_all))
      as [|Hnex]; [done|]. exfalso.
    assert (Forall (λ x_0, ¬ raises (minimize cost x_0 kwargs)) x_0_all) as Hall.
    { apply Forall_forall. intros x_0 Hx Hrx. apply Hnex, Exists_exists. eauto. }
    destruct (mapM_total (λ x_0, minimize cost x_0 kwargs) x_0_all Hall)
      as [results Hres].
    assert (results ≠ []) as Hrne.
    { intros ->. apply mapM_Ok_Forall2, Forall2_nil_inv_r in Hres. done. }
    destruct (minimize_global_select minimize cost x_0_all kwargs results
                Hres Hrne) as (? & ? & ? & Hmg & _).
    by rewrite Hmg in Hr.
  - intros [-> | (x_0 & Hin & Hx)%Exists_exists]; [done|].
    by eapply minimize_global_local_raise.
Qed.

(** With a single initial guess the multi-start wrapper is transparent:
    it returns exactly what the local minimization returns, or raises what
    it raises. *)
Theorem minimize_global_single_guess {K} (minimize : minimizer K)
    (cost : cost_fn) (x_0 : list fnum) (kwargs : K) :
  minimize_global minimize cost [x_0] kwargs = minimize cost x_0 kwargs.
Proof.
  unfold minimize_global. rewrite mapM_cons.
  destruct (minimize cost x_0 kwargs) as [r|err]; [|done].
  cbn. by rewrite bool_decide_eq_true_2.
Qed.

(** The best of the starts, when no cost is [nan]. *)
Lemma minimize_global_least {K} (minimize : minimizer K)
    (cost : cost_fn) (x_0_all : list (list fnum)) (kwargs : K) :
  x_0_all ≠ [] →
  (∀ x_0, x_0 ∈ x_0_all →
     ∃ r, minimize cost x_0 kwargs = Ok r ∧ OptimizeResult.fun_ r ≠ NaN) →
  ∃ best,
    minimize_global minimize cost x_0_all kwargs = Ok best
    ∧ OptimizeResult.fun_ best ≠ NaN
    ∧ (∃ x_0, x_0 ∈ x_0_all ∧ minimize cost x_0 kwargs = Ok best)
    ∧ (∀ x_0 r, x_0 ∈ x_0_all → minimize cost x_0 kwargs = Ok r →
         fle (OptimizeResult.fun_ best) (OptimizeResult.fun_ r) = true).
Proof.
  intros Hne Hall.
  destruct (mapM_total (λ x_0, minimize cost x_0 kwargs) x_0_all) as [results Hres].
  { apply Forall_forall. intros x_0 Hx. destruct (Hall x_0 Hx) as (r & -> & _). tauto. }
  pose proof Hres as HF. apply mapM_Ok_Forall2 in HF.
  assert (results ≠ []) as Hrne.
  { intros ->. apply Forall2_nil_inv_r in HF. done. }
  destruct (minimize_global_select minimize cost x_0_all kwargs results Hres Hrne)
    as (idx & best & v & Hmg & Hbest & Hv & [j Hmin] & _).
  destruct (Forall2_lookup_r _ _ _ _ _ HF Hbest) as (x_best & Hxb & Hmb).
  assert (x_best ∈ x_0_all) as Hxin by (by eapply list_elem_of_lookup_2).
  exists best. split; [done|]. split.
  { destruct (Hall x_best Hxin) as (r' & Hr' & Hnan). cbn beta in Hmb. congruence. }
  split; [by exists x_best|].
  intros x_0 r Hx Hm. destruct (Hall x_0 Hx) as (r' & Hr' & Hnan).
  assert (r' = r) as -> by congruence.
  destruct (Hall x_best Hxin) as (rb & Hrb & Hbnan). cbn beta in Hmb.
  assert (rb = best) as -> by congruence.
  apply fle_of_not_flt; [done | done |].
  rewrite <- Hv in Hmin. pose proof (py_min_pos_not_beaten _ _ _ Hmin) as Hnb.
  rewrite Forall_fmap, Forall_forall in Hnb. apply Hnb.
  apply list_elem_of_lookup in Hx as [i Hx].
  destruct (Forall2_lookup_l _ _ _ _ _ HF Hx) as (r'' & Hr'' & Hm'').
  cbn beta in Hm''. assert (r'' = r) as -> by congruence.
  by eapply list_elem_of_lookup_2.
Qed.

(** More initial guesses never give a worse fit: when every start of the
    larger list ends on a cost that is a number, the cost returned for the
    larger list is [<=] the cost returned for any non-empty part of it. *)
Theorem minimize_global_more_guesses_never_worse {K} (minimize : minimizer K)
    (cost : cost_fn) (x_0_all x_0_more : list (list fnum)) (kwargs : K) :
  x_0_all ≠ [] →
  x_0_all ⊆ x_0_more →
  (∀ x_0, x_0 ∈ x_0_more →
     ∃ r, minimize cost x_0 kwargs = Ok r ∧ OptimizeResult.fun_ r ≠ NaN) →
  ∃ best best_more,
    minimize_global minimize cost x_0_all kwargs = Ok best
    ∧ minimize_global minimize cost x_0_more kwargs = Ok best_more
    ∧ fle (OptimizeResult.fun_ best_more) (OptimizeResult.fun_ best) = true.
Proof.
  intros Hne Hsub Hall.
  assert (x_0_more ≠ []) as Hne'.
  { intros ->. destruct x_0_all as [|x ?]; [done|].
    by apply (elem_of_nil x), Hsub; left. }
  destruct (minimize_global_least minimize cost x_0_all kwargs Hne)
    as (best & Hmg & _ & (x_b & Hxb & Hmb) & _).
  { intros x_0 Hx. apply Hall. by apply Hsub. }
  destruct (minimize_global_least minimize cost x_0_more kwargs Hne' Hall)
    as (best' & Hmg' & _ & _ & Hle').
  exists best, best'. split; [done|]. split; [done|].
  apply (Hle' x_b best); [by apply Hsub | done].
Qed.

Lemma minimize_global_more_guesses_never_worse_witness :
  ∃ best best_more,
    minimize_global minimize_at_start first_coordinate [[fz 3]; [fz 2]] tt
      = Ok best
    ∧ minimize_global minimize_at_start first_coordinate
        [[fz 2]; [fz 1]; [fz 3]] tt = Ok best_more
    ∧ fle (OptimizeResult.fun_ best_more) (OptimizeResult.fun_ best) = true.
Proof.
  apply (minimize_global_more_guesses_never_worse minimize_at_start
           first_coordinate [[fz 3]; [fz 2]] [[fz 2]; [fz 1]; [fz 3]] tt).
  - discriminate.
  - intros x Hx. repeat (apply elem_of_cons in Hx as [-> | Hx]);
      [apply (bool_decide_unpack _); vm_compute; exact I ..
      | by apply elem_of_nil in Hx].
  - intros x_0 Hx. repeat (apply elem_of_cons in Hx as [-> | Hx]);
      [eexists; split; [reflexivity | discriminate] .. | by apply elem_of_nil in Hx].
Defined.

(** The order of the initial guesses does not change the cost reached:
    for two orderings of the same guesses, with costs that are numbers,
    [minimize_global] returns results of equal cost. *)
Theorem minimize_global_cost_order_independent {K} (minimize : minimizer K)
    (cost : cost_fn) (x_0_all x_0_perm : list (list fnum)) (kwargs : K) :
  x_0_all ≠ [] →
  x_0_all ≡ₚ x_0_perm →
  (∀ x_0, x_0 ∈ x_0_all →
     ∃ r, minimize cost x_0 kwargs = Ok r ∧ OptimizeResult.fun_ r ≠ NaN) →
  ∃ best best_perm,
    minimize_global minimize cost x_0_all kwargs = Ok best
    ∧ minimize_global minimize cost x_0_perm kwargs = Ok best_perm
    ∧ OptimizeResult.fun_ best_perm = OptimizeResult.fun_ best.
Proof.
  intros Hne Hperm Hall.
  assert (x_0_perm ≠ []) as Hne'.
  { intros H. rewrite H in Hperm. by apply Permutation_nil_r in Hperm. }
  assert (∀ x_0, x_0 ∈ x_0_perm →
            ∃ r, minimize cost x_0 kwargs = Ok r ∧ OptimizeResult.fun_ r ≠ NaN)
    as Hall'.
  { intros x_0 Hx. apply Hall. by rewrite Hperm. }
  destruct (minimize_global_least minimize cost x_0_all kwargs Hne Hall)
    as (best & Hmg & _ & (x_b & Hxb & Hmb) & Hle).
  destruct (minimize_global_least minimize cost x_0_perm kwargs Hne' Hall')
    as (best' & Hmg' & _ & (x_b' & Hxb' & Hmb') & Hle').
  exists best, best'. split; [done|]. split; [done|].
  apply fle_antisym.
  - apply (Hle' x_b best); [by rewrite <- Hperm | done].
  - apply (Hle x_b' best'); [by rewrite Hperm | done].
Qed.

Lemma minimize_global_cost_order_independent_witness :
  ∃ best best_perm,
    minimize_global minimize_at_start first_coordinate
      [[fz 3]; [fz 1]; [fz 2]] tt = Ok best
    ∧ minimize_global minimize_at_start first_coordinate
        [[fz 2]; [fz 3]; [fz 1]] tt = Ok best_perm
    ∧ OptimizeResult.fun_ best_perm = OptimizeResult.fun_ best.
Proof.
  apply (minimize_global_cost_order_independent minimize_at_start
           first_coordinate [[fz 3]; [fz 1]; [fz 2]] [[fz 2]; [fz 3]; [fz 1]] tt).
  - discriminate.
  - apply (bool_decide_unpack _). vm_compute. exact I.
  - intros x_0 Hx. repeat (apply elem_of_cons in Hx as [-> | Hx]);
      [eexists; split; [reflexivity | discriminate] .. | by apply elem_of_nil in Hx].
Defined.

(** ** More on [enh_to_conc] *)

Lemma mapM_app {A B} (f : A → result B) l1 l2 :
  mapM f (l1 ++ l2) = k1 ← mapM f l1; k2 ← mapM f l2; mret (k1 ++ k2).
Proof.
  induction l1 as [|x l1 IH].
  - cbn [app]. change (mapM f []) with (Ok (@nil B)). simpl_result.
    by destruct (mapM f l2).
  - cbn [app]. rewrite !mapM_cons, IH. destruct (f x); [|done]. simpl_result.
    destruct (mapM f l1); [|done]. simpl_result. by destruct (mapM f l2).
Qed.

Lemma enh_to_conc_Ok_inv root k R10 c_to_r_model signal_model enh r :
  enh_to_conc root k R10 c_to_r_model signal_model enh = Ok r →
  ∃ C_t, r = NpArray C_t
         ∧ mapM (enh_to_conc_single root k R10 c_to_r_model signal_model) enh
           = Ok C_t.
Proof.
  unfold enh_to_conc. destruct (mapM _ enh) as [C_t|]; [|done]. simpl_result.
  intros [= <-]. by exists C_t.
Qed.

(** The samples are converted one by one, with nothing carried over: the
    conversion of two series laid end to end is the two conversions laid
    end to end, each as long as its input, and it fails exactly when one of
    the two fails. *)
Theorem enh_to_conc_concatenation
    (root : root_solver) (k R10 : fnum)
    (c_to_r_model : c_to_r_model.t) (signal_model : signal_model.t)
    (enh1 enh2 : list fnum) :
  (∀ C1 C2,
     enh_to_conc root k R10 c_to_r_model signal_model enh1 = Ok (NpArray C1) →
     enh_to_conc root k R10 c_to_r_model signal_model enh2 = Ok (NpArray C2) →
     enh_to_conc root k R10 c_to_r_model signal_model (enh1 ++ enh2)
       = Ok (NpArray (C1 ++ C2))
     ∧ length C1 = length enh1 ∧ length C2 = length enh2)
  ∧ (raises (enh_to_conc root k R10 c_to_r_model signal_model (enh1 ++ enh2))
     ↔ raises (enh_to_conc root k R10 c_to_r_model signal_model enh1)
       ∨ raises (enh_to_conc root k R10 c_to_r_model signal_model enh2)).
Proof.
  split.
  - intros C1 C2 H1 H2.
    apply enh_to_conc_Ok_inv in H1 as (C1' & [= <-] & H1).
    apply enh_to_conc_Ok_inv in H2 as (C2' & [= <-] & H2).
    unfold enh_to_conc. rewrite mapM_app, H1, H2. simpl_result.
    split; [done|]. split; by eapply mapM_Ok_length.
  - unfold enh_to_conc. rewrite !fmap_raises, mapM_app.
    destruct (mapM _ enh1), (mapM _ enh2); simpl; tauto.
Qed.

(** With a root finder whose reported roots are exact, every concentration
    that [enh_to_conc] returns reproduces its enhancement:
    [conc_to_enh] of the returned sample is the sample that was given. *)
Theorem enh_to_conc_reproduces_enhancement
    (root : root_solver) (k R10 : fnum)
    (c_to_r_model : c_to_r_model.t) (signal_model : signal_model.t)
    (enh C_t : list fnum) :
  (∀ e res,
     e ∈ enh →
     root (enh_residual k R10 c_to_r_model signal_model e) fzero "hybr"
          {| maxfev := 1000; xtol := xtol_1e_7 |} = Ok res →
     RootResult.success res = true →
     ∃ r, RootResult.x res = [r]
          ∧ enh_residual k R10 c_to_r_model signal_model e (NpArray [r])
            = Ok (NpArray [fzero])) →
  enh_to_conc root k R10 c_to_r_model signal_model enh = Ok (NpArray C_t) →
  Forall2 (λ c e,
             conc_to_enh (NpArray [c]) k R10 c_to_r_model signal_model
             = Ok (NpArray [e])) C_t enh.
Proof.
  intros Hroot Hconc.
  apply enh_to_conc_Ok_inv in Hconc as (C_t' & [= <-] & Hmap).
  apply mapM_Ok_Forall2 in Hmap.
  apply Forall2_same_length_lookup_2; [symmetry; by eapply Forall2_length|].
  intros i c e Hc He.
  destruct (Forall2_lookup_l _ _ _ _ _ Hmap He) as (c' & Hc' & Hec).
  assert (c' = c) as -> by congruence. cbn beta in Hec.
  assert (e ∈ enh) as Hin by (by eapply list_elem_of_lookup_2).
  unfold enh_to_conc_single in Hec.
  destruct (root _ _ _ _) as [res|] eqn:Hres; [|done]. simpl_result.
  destruct (RootResult.success res) eqn:Hs; [|done].
  destruct (Hroot e res Hin Hres Hs) as (r & Hx & Hzero).
  rewrite Hx in Hec. cbn in Hec. injection Hec as <-.
  by apply enh_residual_root.
Qed.

Lemma secant_root_exact f x0 method options res :
  secant_root f x0 method options = Ok res →
  RootResult.success res = true →
  ∃ r, RootResult.x res = [r] ∧ f (NpArray [r]) = Ok (NpArray [fzero]).
Proof.
  unfold secant_root.
  destruct (f (NpArray [x0])) as [y0|]; [|done]. simpl_result.
  destruct (f (NpArray [fadd x0 fone])) as [y1|]; [|done]. simpl_result.
  destruct y0 as [?|?|[|f0 [|? ?]]]; try (by intros [= <-]).
  destruct y1 as [?|?|[|f1 [|? ?]]]; try (by intros [= <-]).
  destruct (f (NpArray [fsub x0 (fdiv f0 (fsub f1 f0))])) as [y|] eqn:Hy; [|done].
  simpl_result. intros [= <-]. cbn [RootResult.success RootResult.x].
  intros [_ Hzero%bool_decide_eq_true]%andb_true_iff.
  eexists. split; [done|]. by rewrite Hy, Hzero.
Qed.

Lemma enh_to_conc_reproduces_enhancement_witness :
  Forall2 (λ c e,
             conc_to_enh (NpArray [c]) fone fone linear_relaxivity
               proportional_signal = Ok (NpArray [e]))
    [fq 1 2; fz 2] [fz 50; fz 200].
Proof.
  apply (enh_to_conc_reproduces_enhancement secant_root fone fone
           linear_relaxivity proportional_signal [fz 50; fz 200] [fq 1 2; fz 2]).
  - intros e res _ Hres Hs. exact (secant_root_exact _ _ _ _ _ Hres Hs).
  - apply (bool_decide_unpack _). vm_compute. exact I.
Defined.

(** ** More on [conc_to_enh] *)

Lemma percent_sample m q :
  m ≠ 0 →
  fmul fhundred (fdiv (fsub (Fin q) (Fin m)) (Fin m)) = Fin (percent_change m q).
Proof.
  intros Hm. unfold fhundred, fsub, percent_change. cbn [fneg fadd fdiv].
  by rewrite (bool_decide_eq_false_2 _ Hm).
Qed.

Lemma percent_change_same m : m ≠ 0 → percent_change m m = 0.
Proof. intros Hm. unfold percent_change. by field. Qed.

Lemma py_div_raise x y err :
  py_div x y = Raise err ↔ y = fzero ∧ err = ZeroDivisionError.
Proof.
  unfold py_div. destruct (feqb y fzero) eqn:Hy.
  - apply feqb_zero_iff in Hy. split; [by intros [= <-] | by intros [_ ->]].
  - split; [done|]. intros [Hz _]. apply feqb_zero_iff in Hz. congruence.
Qed.

Lemma no_zde_np_div_numpy_l a b : is_numpy a → no_zde (np_div a b).
Proof.
  unfold np_div. destruct a, b; try done; intros _; apply no_zde_np_binop.
Qed.

(** [conc_to_enh] divides by the pre-contrast signal without a guard.  It
    ends in [ZeroDivisionError] exactly when that signal is the Python float
    zero and the post-contrast signal is a Python float too; for a
    post-contrast array, a zero pre-contrast signal gives a series of the
    same length without one finite sample, and nothing is raised. *)
Theorem conc_to_enh_zero_reference
    (C_t : npval) (k R10 : fnum)
    (c_to_r_model : c_to_r_model.t) (signal_model : signal_model.t) :
  let s_pre := signal_model.R_to_s signal_model fone (PyFloat R10)
                 (Some (PyFloat fzero)) (Some (PyFloat fzero)) k in
  let R2 := c_to_r_model.R2 c_to_r_model fzero C_t in
  let s_post := signal_model.R_to_s signal_model fone
                  (c_to_r_model.R1 c_to_r_model R10 C_t) (Some R2) (Some R2) k in
  (conc_to_enh C_t k R10 c_to_r_model signal_model = Raise ZeroDivisionError
   ↔ s_pre = PyFloat fzero ∧ ∃ x, s_post = PyFloat x)
  ∧ (∀ ys, s_post = NpArray ys →
       s_pre = PyFloat fzero ∨ s_pre = NpScalar fzero →
       ∃ enh, conc_to_enh C_t k R10 c_to_r_model signal_model = Ok (NpArray enh)
              ∧ length enh = length ys
              ∧ Forall (λ x, ¬ is_finite x) enh).
Proof.
  intros s_pre R2 s_post. unfold conc_to_enh. fold R2. fold s_pre. fold s_post.
  split.
  - destruct s_post as [x|x|xs] eqn:Hpost, s_pre as [y|y|ys] eqn:Hpre.
    1:{ unfold np_sub, np_mul, np_div. cbn [np_binop]. simpl_result.
        destruct (py_div (fsub x y) y) as [q|err] eqn:Hd; simpl_result;
          cbn [np_binop].
        - split; [done|]. intros [[= ->] _].
          assert (py_div (fsub x fzero) fzero = Raise ZeroDivisionError) as H
              by (by apply py_div_raise).
          congruence.
        - apply py_div_raise in Hd as [-> ->]. split; [by eauto | done]. }
    all: split; [|by intros [[=] [? [=]]] || by intros [_ [? [=]]]].
    all: intros Hzde; exfalso; revert Hzde.
    all: apply no_zde_bind; [apply no_zde_np_binop|]; intros d Hd.
    all: apply no_zde_bind; [|intros; apply no_zde_np_binop].
    all: try (by apply no_zde_np_div_numpy).
    all: apply no_zde_np_div_numpy_l;
      by eapply (np_binop_is_numpy fsub); [|exact Hd].
  - intros ys -> Hpre.
    exists (map (λ x, fmul fhundred (fdiv (fsub x fzero) fzero)) ys).
    split; [|split; [by rewrite length_map|]].
    + destruct Hpre as [-> | ->]; unfold np_sub, np_mul, np_div; cbn [np_binop];
        simpl_result; cbn [np_binop]; simpl_result; by rewrite !map_map.
    + apply Forall_map, Forall_forall. intros x _. cbn beta.
      apply fmul_hundred_not_finite, fdiv_zero_not_finite.
Qed.

(** No change of signal, no enhancement: when the post-contrast signal
    equals the finite, non-zero pre-contrast signal at every sample,
    [conc_to_enh] returns the zero series. *)
Theorem conc_to_enh_unchanged_signal
    (C_t : npval) (k R10 : fnum)
    (c_to_r_model : c_to_r_model.t) (signal_model : signal_model.t)
    (s : Qc) (n : nat) :
  let s_pre := signal_model.R_to_s signal_model fone (PyFloat R10)
                 (Some (PyFloat fzero)) (Some (PyFloat fzero)) k in
  let R2 := c_to_r_model.R2 c_to_r_model fzero C_t in
  let s_post := signal_model.R_to_s signal_model fone
                  (c_to_r_model.R1 c_to_r_model R10 C_t) (Some R2) (Some R2) k in
  s ≠ 0 →
  s_pre = PyFloat (Fin s) ∨ s_pre = NpScalar (Fin s) →
  s_post = NpArray (replicate n (Fin s)) →
  conc_to_enh C_t k R10 c_to_r_model signal_model
  = Ok (NpArray (replicate n fzero)).
Proof.
  intros s_pre R2 s_post Hs Hpre Hpost. unfold conc_to_enh.
  fold R2. fold s_pre. fold s_post. rewrite Hpost.
  assert (map (λ x, fmul fhundred (fdiv (fsub x (Fin s)) (Fin s)))
              (replicate n (Fin s)) = replicate n fzero) as Hzero.
  { clear -Hs. induction n as [|n IH]; [done|]. cbn [replicate map].
    by rewrite IH, (percent_sample s s Hs), (percent_change_same s Hs). }
  destruct Hpre as [-> | ->]; unfold np_sub, np_mul, np_div; cbn [np_binop];
    simpl_result; cbn [np_binop]; simpl_result; by rewrite !map_map, Hzero.
Qed.

Lemma conc_to_enh_unchanged_signal_witness :
  conc_to_enh (NpArray (replicate 3 fzero)) fone (Fin (1 + 0)) linear_relaxivity
    proportional_signal
  = Ok (NpArray (replicate 3 fzero)).
Proof.
  apply (conc_to_enh_unchanged_signal (NpArray (replicate 3 fzero)) fone
           (Fin (1 + 0)) linear_relaxivity proportional_signal
           (1 * (1 + 0)) 3).
  - apply (bool_decide_unpack _). vm_compute. exact I.
  - left. reflexivity.
  - apply (bool_decide_unpack _). vm_compute. exact I.
Defined.

(** ** The least-squares cost of [conc_to_pkp] and [enh_to_pkp] *)

Lemma Qc_mult_nonneg a b : 0 ≤ a → 0 ≤ b → 0 ≤ a * b.
Proof.
  intros Ha Hb. pose proof (Qcmult_le_compat_r 0 a b Ha Hb) as H.
  by replace (0 * b) with 0 in H by ring.
Qed.

Lemma Qc_square_nonneg d : 0 ≤ d * d.
Proof.
  destruct (Qclt_le_dec d 0) as [Hneg|Hpos].
  - replace (d * d) with ((- d) * (- d)) by ring.
    assert (0 ≤ - d) as H.
    { apply Qclt_le_weak, Qcopp_le_compat in Hneg.
      by replace (- 0) with 0 in Hneg by ring. }
    by apply Qc_mult_nonneg.
  - by apply Qc_mult_nonneg.
Qed.

Lemma Qc_add_nonneg a b : 0 ≤ a → 0 ≤ b → 0 ≤ a + b.
Proof.
  intros Ha Hb. pose proof (Qcplus_le_compat 0 a 0 b Ha Hb) as H.
  by rewrite Qcplus_0_l in H.
Qed.

Lemma weighted_ssq_cons w ws t try o obs :
  weighted_ssq (w :: ws) (t :: try) (o :: obs)
  = w * ((t - o) * (t - o)) + weighted_ssq ws try obs.
Proof. unfold weighted_ssq. cbn [zip_with fmap list_fmap]. apply Qc_sum_cons. Qed.

Lemma zip_with_Fin (f : fnum → fnum → fnum) (g : Qc → Qc → Qc) (a b : list Qc) :
  (∀ x y, f (Fin x) (Fin y) = Fin (g x y)) →
  zip_with f (Fin <$> a) (Fin <$> b) = Fin <$> zip_with g a b.
Proof.
  intros Hfg. revert b. induction a as [|x a IH]; intros [|y b]; try done.
  cbn [fmap list_fmap zip_with]. by rewrite Hfg, <- IH.
Qed.

Lemma map_Fin (f : fnum → fnum) (g : Qc → Qc) (qs : list Qc) :
  (∀ q, f (Fin q) = Fin (g q)) → map f (Fin <$> qs) = Fin <$> (g <$> qs).
Proof.
  intros Hfg. induction qs as [|q qs IH]; [done|].
  cbn [fmap list_fmap map]. by rewrite Hfg, <- IH.
Qed.

(** The three NumPy steps [np.sum(weights * ((try - obs)**2))] on finite
    series of one length. *)
Lemma sum_of_squares_Fin ws try obs :
  length try = length obs → length ws = length obs →
  (d ← np_sub (NpArray (Fin <$> try)) (NpArray (Fin <$> obs));
   weighted ← np_mul (NpArray (Fin <$> ws)) (np_square d);
   Ok (np_sum weighted))
  = Ok (Fin (weighted_ssq ws try obs)).
Proof.
  intros Ht Hw. unfold np_sub, np_mul. cbn [np_binop]. unfold broadcast.
  rewrite bool_decide_eq_true_2 by (by rewrite !length_fmap).
  simpl_result. cbn [np_square np_binop]. unfold broadcast.
  rewrite (zip_with_Fin fsub Qcminus) by done.
  rewrite (map_Fin _ (λ d, d * d)) by done.
  rewrite bool_decide_eq_true_2
    by (rewrite !length_fmap, length_zip_with; lia).
  simpl_result. cbn [np_sum].
  rewrite (zip_with_Fin fmul Qcmult) by done.
  by rewrite fsum_Fin.
Qed.

Lemma weighted_ssq_same ws os : weighted_ssq ws os os = 0.
Proof.
  revert os. induction ws as [|w ws IH]; intros [|o os]; try done.
  rewrite weighted_ssq_cons, IH. ring.
Qed.

(** Floats that are not negative: zero, a positive number, [+inf], or
    [nan], the value no comparison holds for. *)
Lemma fmul_square_not_negative d : flt (fmul d d) fzero = false.
Proof.
  destruct d as [a| | |]; try done. simpl. apply bool_decide_eq_false.
  apply Qcle_not_lt, Qc_square_nonneg.
Qed.

Lemma fmul_not_negative w s :
  flt w fzero = false → flt s fzero = false → flt (fmul w s) fzero = false.
Proof.
  destruct w as [a| | |], s as [b| | |]; try done; simpl;
    rewrite ?bool_decide_eq_false; intros Ha Hb.
  - apply Qcle_not_lt, Qc_mult_nonneg; by apply Qcnot_lt_le.
  - case_bool_decide as H0; [done|]. unfold signed_inf.
    rewrite bool_decide_eq_true_2; [done|].
    apply Qcnot_lt_le, Qcle_lt_or_eq in Ha as [Ha | Ha]; [done | congruence].
  - case_bool_decide as H0; [done|]. unfold signed_inf.
    rewrite bool_decide_eq_true_2; [done|].
    apply Qcnot_lt_le, Qcle_lt_or_eq in Hb as [Hb | Hb]; [done | congruence].
Qed.

Lemma fadd_not_negative x y :
  flt x fzero = false → flt y fzero = false → flt (fadd x y) fzero = false.
Proof.
  destruct x as [a| | |], y as [b| | |]; try done; simpl;
    rewrite ?bool_decide_eq_false; intros Ha Hb.
  apply Qcle_not_lt, Qc_add_nonneg; by apply Qcnot_lt_le.
Qed.

Lemma foldl_fadd_not_negative xs acc :
  flt acc fzero = false → Forall (λ x, flt x fzero = false) xs →
  flt (foldl fadd acc xs) fzero = false.
Proof.
  intros Hacc Hxs. revert acc Hacc.
  induction Hxs as [|x xs Hx Hxs IH]; intros acc Hacc; [done|].
  cbn [foldl]. apply IH. by apply fadd_not_negative.
Qed.

Lemma fsum_not_negative xs :
  Forall (λ x, flt x fzero = false) xs → flt (fsum xs) fzero = false.
Proof. apply foldl_fadd_not_negative, flt_irrefl. Qed.

Lemma broadcast_Forall (P Q R : fnum → Prop) f xs ys zs :
  (∀ x y, P x → Q y → R (f x y)) →
  Forall P xs → Forall Q ys → broadcast f xs ys = Ok zs → Forall R zs.
Proof.
  intros Hf Hxs Hys. unfold broadcast.
  assert (Forall R (zip_with f xs ys)) as Hzip.
  { clear -Hf Hxs Hys. revert ys Hys.
    induction Hxs as [|x xs Hx Hxs IH]; intros ys Hys; [constructor|].
    destruct Hys as [|y ys Hy Hys]; [constructor|].
    cbn [zip_with]. constructor; [by apply Hf | by apply IH]. }
  assert (∀ x, P x → Forall R (map (f x) ys)) as Hleft.
  { intros x Hx. apply Forall_map. eapply Forall_impl; [exact Hys|].
    intros y Hy. by apply Hf. }
  assert (∀ y, Q y → Forall R (map (λ x, f x y) xs)) as Hright.
  { intros y Hy. apply Forall_map. eapply Forall_impl; [exact Hxs|].
    intros x Hx. by apply Hf. }
  case_bool_decide; [by intros [= <-]|].
  destruct xs as [|x [|x' xs]].
  - destruct ys as [|y [|y' ys]]; [done | | done].
    intros [= <-]. constructor.
  - intros Heq. injection Heq as <-. apply Hleft. by inversion_clear Hxs.
  - destruct ys as [|y [|y' ys]]; [done | | done].
    intros Heq. injection Heq as <-. apply Hright. by inversion_clear Hys.
Qed.

(** [np.sum(weights * ((M - obs)**2))] is not negative when no weight is. *)
Lemma sum_of_squares_not_negative (M : npval) (obs weights : list fnum) c :
  Forall (λ w, flt w fzero = false) weights →
  (d ← np_sub M (NpArray obs);
   weighted ← np_mul (NpArray weights) (np_square d);
   Ok (np_sum weighted)) = Ok c →
  flt c fzero = false.
Proof.
  intros Hw.
  destruct (np_sub M (NpArray obs)) as [d|] eqn:Hd; [|done]. simpl_result.
  assert (∃ ds, d = NpArray ds) as [ds ->].
  { unfold np_sub in Hd. destruct M; cbn [np_binop] in Hd;
      [by injection Hd as <-; eexists ..|].
    destruct (broadcast fsub xs obs); [|done]. injection Hd as <-. by eexists. }
  unfold np_mul. cbn [np_square np_binop].
  destruct (broadcast fmul weights _) as [zs|] eqn:Hz; [|done]. simpl_result.
  intros [= <-]. cbn [np_sum]. apply fsum_not_negative.
  eapply (broadcast_Forall (λ w, flt w fzero = false)
            (λ s, flt s fzero = false)); [| exact Hw | | exact Hz].
  - intros. by apply fmul_not_negative.
  - apply Forall_map, Forall_forall. intros x _. apply fmul_square_not_negative.
Qed.

(** The cost that [conc_to_pkp] minimises is never negative when no weight
    is negative, whatever the data and the model's series hold ([nan] and
    infinities included); and it is exactly zero at a parameter vector for
    which the model returns the finite observed series itself, for finite
    weights. *)
Theorem conc_cost_sign {C} (pk_model : pk_model.t C)
    (obs weights x_norm : list fnum) :
  (Forall (λ w, flt w fzero = false) weights →
   ∀ c, conc_cost pk_model obs weights x_norm = Ok c → flt c fzero = false)
  ∧ (∀ x os ws,
       obs = Fin <$> os → weights = Fin <$> ws → length ws = length os →
       broadcast fmul x_norm (pk_model.typical_vals pk_model) = Ok x →
       (pk_model.conc pk_model (Positional x)).1.1 = NpArray obs →
       conc_cost pk_model obs weights x_norm = Ok fzero).
Proof.
  split.
  - intros Hw c. unfold conc_cost.
    destruct (broadcast fmul x_norm _) as [x|]; [|done]. simpl_result.
    destruct (pk_model.conc pk_model (Positional x)) as [[C_t_try C_cp] C_e].
    by apply sum_of_squares_not_negative.
  - intros x os ws -> -> Hlen Hx Hconc. unfold conc_cost. rewrite Hx.
    simpl_result.
    destruct (pk_model.conc pk_model (Positional x)) as [[C_t_try C_cp] C_e].
    cbn [fst] in Hconc. subst C_t_try.
    by rewrite sum_of_squares_Fin, weighted_ssq_same.
Qed.

Lemma conc_cost_sign_witness :
  flt NaN fzero = false
  ∧ conc_cost flat_pk_model (Fin <$> [Qc_of_Z 3 * 1; Qc_of_Z 3 * 1])
      (Fin <$> [Qc_of_Z 1; Qc_of_Z 0]) [fz 3]
    = Ok fzero.
Proof.
  split.
  - apply (proj1 (conc_cost_sign flat_pk_model [NaN; fz 5] [fz 1; fz 0] [fz 3])).
    + repeat constructor.
    + apply (bool_decide_unpack _). vm_compute. exact I.
  - apply (proj2 (conc_cost_sign flat_pk_model
                    (Fin <$> [Qc_of_Z 3 * 1; Qc_of_Z 3 * 1])
                    (Fin <$> [Qc_of_Z 1; Qc_of_Z 0]) [fz 3])
             [Fin (Qc_of_Z 3 * 1)] [Qc_of_Z 3 * 1; Qc_of_Z 3 * 1]
             [Qc_of_Z 1; Qc_of_Z 0]); reflexivity.
Defined.

(** The same for the cost that [enh_to_pkp] minimises, where the series
    compared with the data is the enhancement that [pkp_to_enh] predicts. *)
Theorem enh_cost_sign {C} (pk_model : pk_model.t C)
    (hct k R10_tissue R10_blood : fnum)
    (c_to_r_model : c_to_r_model.t) (water_ex_model : water_ex_model.t)
    (signal_model : signal_model.t)
    (obs weights x_norm : list fnum) :
  (Forall (λ w, flt w fzero = false) weights →
   ∀ c, enh_cost pk_model hct k R10_tissue R10_blood c_to_r_model
          water_ex_model signal_model obs weights x_norm = Ok c →
        flt c fzero = false)
  ∧ (∀ x os ws,
       obs = Fin <$> os → weights = Fin <$> ws → length ws = length os →
       broadcast fmul x_norm (pk_model.typical_vals pk_model) = Ok x →
       pkp_to_enh (pk_model.pkp_dict pk_model x) hct k R10_tissue R10_blood
         pk_model c_to_r_model water_ex_model signal_model
       = Ok (NpArray obs) →
       enh_cost pk_model hct k R10_tissue R10_blood c_to_r_model
         water_ex_model signal_model obs weights x_norm
       = Ok fzero).
Proof.
  split.
  - intros Hw c. unfold enh_cost.
    destruct (broadcast fmul x_norm _) as [x|]; [|done]. simpl_result.
    destruct (pkp_to_enh _ _ _ _ _ _ _ _ _) as [enh_try|]; [|done].
    simpl_result. by apply sum_of_squares_not_negative.
  - intros x os ws -> -> Hlen Hx Henh. unfold enh_cost. rewrite Hx.
    simpl_result. rewrite Henh. simpl_result.
    by rewrite sum_of_squares_Fin, weighted_ssq_same.
Qed.

Lemma enh_cost_sign_witness :
  flt NaN fzero = false
  ∧ enh_cost plasma_pk_model (fq 1 2) fone fone fone linear_relaxivity nxl
      proportional_signal (Fin <$> [Qc_of_Z 50; Qc_of_Z 50])
      (Fin <$> [Qc_of_Z 1; Qc_of_Z 1]) [fq 1 4; fq 1 4]
    = Ok fzero.
Proof.
  split.
  - apply (proj1 (enh_cost_sign plasma_pk_model (fq 1 2) fone fone fone
                    linear_relaxivity nxl proportional_signal
                    [NaN; fz 50] [fz 0; fz 1] [fq 1 4; fq 1 4])).
    + repeat constructor.
    + apply (bool_decide_unpack _). vm_compute. exact I.
  - apply (proj2 (enh_cost_sign plasma_pk_model (fq 1 2) fone fone fone
                    linear_relaxivity nxl proportional_signal
                    (Fin <$> [Qc_of_Z 50; Qc_of_Z 50])
                    (Fin <$> [Qc_of_Z 1; Qc_of_Z 1]) [fq 1 4; fq 1 4])
             [fmul (fq 1 4) fone; fmul (fq 1 4) fone]
             [Qc_of_Z 50; Qc_of_Z 50] [Qc_of_Z 1; Qc_of_Z 1]);
      try reflexivity.
    apply (bool_decide_unpack _). vm_compute. exact I.
Defined.

(** ** Starting points and weights of the two fits *)

(** An empty list of initial guesses: nothing is fitted, and both fits end
    in the [ValueError] of [min] on an empty sequence, whatever the data,
    the weights and the models are. *)
Theorem fit_without_guesses {C} (minimize : minimizer (minimize_kwargs C))
    (pk_model : pk_model.t C) (hct k R10_tissue R10_blood : fnum)
    (c_to_r_model : c_to_r_model.t) (water_ex_model : water_ex_model.t)
    (signal_model : signal_model.t)
    (obs : list fnum) (weights : option (list fnum)) :
  conc_to_pkp minimize pk_model obs (Some []) weights = Raise ValueError
  ∧ enh_to_pkp minimize pk_model hct k R10_tissue R10_blood c_to_r_model
      water_ex_model signal_model obs (Some []) weights
    = Raise ValueError.
Proof. split; reflexivity. Qed.

Lemma nan_at_zero_weights_ones (ys : list fnum) :
  nan_at_zero_weights (np_ones (length ys)) ys = ys.
Proof.
  unfold nan_at_zero_weights, np_ones.
  induction ys as [|y ys IH]; [done|].
  cbn [length replicate zip_with]. rewrite IH.
  replace (feqb fone fzero) with false; [done|].
  symmetry. apply (bool_decide_unpack _). vm_compute. exact I.
Qed.

(** With the default weights no sample of the fitted series is replaced:
    what [conc_to_pkp] returns beside the parameters is the model's series
    at the optimum, and what [enh_to_pkp] returns is exactly the
    enhancement that [pkp_to_enh] predicts for the parameters returned. *)
Theorem default_weights_return_model_series {C}
    (minimize : minimizer (minimize_kwargs C))
    (pk_model : pk_model.t C) (hct k R10_tissue R10_blood : fnum)
    (c_to_r_model : c_to_r_model.t) (water_ex_model : water_ex_model.t)
    (signal_model : signal_model.t)
    (obs : list fnum) (pk_pars_0 : option (list (gmap string fnum))) :
  (∀ pk_pars_opt Ct_fit,
     conc_to_pkp minimize pk_model obs pk_pars_0 None
     = Ok (pk_pars_opt, Ct_fit) →
     ∃ x_opt,
       pk_pars_opt = pk_model.pkp_dict pk_model x_opt
       ∧ (pk_model.conc pk_model (Positional x_opt)).1.1 = Ct_fit)
  ∧ (∀ pk_pars_opt enh_fit,
       enh_to_pkp minimize pk_model hct k R10_tissue R10_blood c_to_r_model
         water_ex_model signal_model obs pk_pars_0 None
       = Ok (pk_pars_opt, enh_fit) →
       pkp_to_enh pk_pars_opt hct k R10_tissue R10_blood pk_model
         c_to_r_model water_ex_model signal_model
       = Ok enh_fit).
Proof.
  split; intros pk_pars_opt fit.
  - unfold conc_to_pkp. cbn [from_option id].
    destruct (starting_points pk_model pk_pars_0) as [x_0_norm_all|]; [|done].
    simpl_result. destruct (minimize_global _ _ _ _) as [result|]; [|done].
    simpl_result. destruct (broadcast _ _ _) as [x_opt|]; [|done].
    simpl_result.
    destruct (pk_model.conc pk_model (Positional x_opt))
      as [[Ct_fit C_cp] C_e] eqn:Hconc.
    unfold nan_where_zero. destruct Ct_fit as [?|?|ys]; try done.
    case_bool_decide as Hlen; [|done]. simpl_result. intros [= <- <-].
    exists x_opt. split; [done|]. rewrite Hconc. cbn [fst].
    unfold np_ones in Hlen. rewrite length_replicate in Hlen.
    by rewrite Hlen, nan_at_zero_weights_ones.
  - unfold enh_to_pkp. cbn [from_option id].
    destruct (starting_points pk_model pk_pars_0) as [x_0_norm_all|]; [|done].
    simpl_result. destruct (minimize_global _ _ _ _) as [result|]; [|done].
    simpl_result. destruct (broadcast _ _ _) as [x_opt|]; [|done].
    simpl_result.
    destruct (pkp_to_enh _ _ _ _ _ _ _ _ _) as [enh_fit|] eqn:Henh; [|done].
    simpl_result. unfold nan_where_zero.
    destruct enh_fit as [?|?|ys]; try done.
    case_bool_decide as Hlen; [|done]. simpl_result. intros [= <- <-].
    unfold np_ones in Hlen. rewrite length_replicate in Hlen.
    by rewrite Henh, Hlen, nan_at_zero_weights_ones.
Qed.

Lemma default_weights_return_model_series_witness :
  ∃ x_opt,
    ({[ "ve" := fmul (fz 3) fone ]} : gmap string fnum)
    = pk_model.pkp_dict flat_pk_model x_opt
    ∧ (pk_model.conc flat_pk_model (Positional x_opt)).1.1
      = NpArray [fmul (fz 3) fone; fmul (fz 3) fone].
Proof.
  apply (proj1 (default_weights_return_model_series minimize_at_start
                  flat_pk_model fone fone fone fone linear_relaxivity nxl
                  proportional_signal [fz 1; fz 2]
                  (Some [ {[ "ve" := fz 3 ]} ]))).
  apply (bool_decide_unpack _). vm_compute. exact I.
Defined.

(** ** The water-exchange decompositions of [r_to_s.py] *)

(** The population-weighted sum of the three compartments' rates: it is
    computed when the three rates have one shape, and has that shape; any
    other combination of shapes is a [ValueError] of [np.sum]. *)
Lemma weighted_rate_cases (p : compartment.t fnum) (r : compartment.t npval) :
  (same_shape r
   ∧ ∃ v, r_to_s.weighted_rate p r = Ok v
          ∧ np_shape v = np_shape (compartment.b r) ∧ is_numpy v)
  ∨ (¬ same_shape r ∧ r_to_s.weighted_rate p r = Raise ValueError).
Proof.
  destruct p as [pb pe pi], r as [rb re ri].
  unfold r_to_s.weighted_rate, same_shape, np_mul.
  cbn [compartment.b compartment.e compartment.i fst snd].
  rewrite !mapM_cons.
  destruct rb as [x|x|xs], re as [y|y|ys], ri as [z|z|zs];
    cbn [np_binop np_shape mapM fst snd]; simpl_result;
    cbn [np_sum_axis0 add_rows add_row]; simpl_result.
  all: rewrite ?length_map.
  all: repeat (case_bool_decide; simpl_result; cbn [add_rows add_row];
               rewrite ?length_zip_with, ?length_map).
  all: try (right; split; [intros [? ?]; simplify_eq; lia | reflexivity]).
  all: try (left; split; [split; first [congruence | f_equal; lia]|];
            eexists; split; [reflexivity|]; cbn [np_shape is_numpy];
            rewrite ?length_zip_with, ?length_map; split; [f_equal; lia | done]).
Qed.

(** No exchange: the three R1 values are passed on untouched, whatever
    their shapes, and the population fractions are returned as given.  The
    call fails only in the shared R2* mean, with [ValueError], when the
    three R2* values do not have one shape. *)
Theorem r_compartments_to_components_nxl_shapes
    (r : compartment.t r_to_s.relax) (p : compartment.t fnum) :
  (same_shape (compartment.map r_to_s.r2s r) →
   ∃ r2s_mean,
     r_to_s.r_compartments_to_components_nxl r p
     = Ok ([ {| r_to_s.r1 := r_to_s.r1 (compartment.b r);
                r_to_s.r2s := r2s_mean |};
             {| r_to_s.r1 := r_to_s.r1 (compartment.e r);
                r_to_s.r2s := r2s_mean |};
             {| r_to_s.r1 := r_to_s.r1 (compartment.i r);
                r_to_s.r2s := r2s_mean |} ],
           [ PyFloat (compartment.b p); PyFloat (compartment.e p);
             PyFloat (compartment.i p) ])
     ∧ np_shape r2s_mean = np_shape (r_to_s.r2s (compartment.b r)))
  ∧ (¬ same_shape (compartment.map r_to_s.r2s r) →
     r_to_s.r_compartments_to_components_nxl r p = Raise ValueError).
Proof.
  unfold r_to_s.r_compartments_to_components_nxl.
  destruct (weighted_rate_cases p (compartment.map r_to_s.r2s r))
    as [(Hsame & v & -> & Hshape & _) | (Hdiff & ->)]; simpl_result.
  - split; [|done]. intros _. by exists v.
  - split; done.
Qed.

(** Fast exchange needs arrays: it returns its single component when the
    three R1 values are arrays of one length and the three R2* values have
    one shape; on scalar R1 values it ends in the [TypeError] of [len]; any
    mismatch of shapes is a [ValueError]. *)
Theorem r_compartments_to_components_fxl_shapes
    (r : compartment.t r_to_s.relax) (p : compartment.t fnum) :
  let R1 := compartment.map r_to_s.r1 r in
  let R2s := compartment.map r_to_s.r2s r in
  (∀ n, same_shape R1 → same_shape R2s →
     np_shape (r_to_s.r1 (compartment.b r)) = Some n →
     ∃ c, r_to_s.r_compartments_to_components_fxl r p
          = Ok ([c], [NpArray (np_ones n)])
          ∧ np_shape (r_to_s.r1 c) = Some n
          ∧ np_shape (r_to_s.r2s c) = np_shape (r_to_s.r2s (compartment.b r)))
  ∧ (same_shape R1 → same_shape R2s →
     np_shape (r_to_s.r1 (compartment.b r)) = None →
     r_to_s.r_compartments_to_components_fxl r p = Raise TypeError)
  ∧ (¬ (same_shape R1 ∧ same_shape R2s) →
     r_to_s.r_compartments_to_components_fxl r p = Raise ValueError).
Proof.
  intros R1 R2s. unfold r_to_s.r_compartments_to_components_fxl.
  fold R1. fold R2s.
  destruct (weighted_rate_cases p R1)
    as [(Hsame1 & v1 & -> & Hshape1 & _) | (Hdiff1 & ->)]; simpl_result.
  2:{ split; [done|]. split; [done|]. done. }
  destruct (weighted_rate_cases p R2s)
    as [(Hsame2 & v2 & -> & Hshape2 & _) | (Hdiff2 & ->)]; simpl_result.
  2:{ split; [done|]. split; [done|]. done. }
  change (np_shape (compartment.b R1))
    with (np_shape (r_to_s.r1 (compartment.b r))) in Hshape1.
  change (np_shape (compartment.b R2s))
    with (np_shape (r_to_s.r2s (compartment.b r))) in Hshape2.
  split; [|split].
  - intros n _ _ Hn. rewrite Hn in Hshape1.
    destruct v1 as [?|?|xs]; try done. cbn [np_shape] in Hshape1.
    cbn [r_to_s.py_len]. simpl_result.
    eexists. split; [by simplify_eq|]. by split.
  - intros _ _ Hn. rewrite Hn in Hshape1. by destruct v1.
  - intros Hno. by destruct Hno.
Qed.

(** Whenever fast exchange succeeds, no exchange succeeds on the same
    input, and each of its three components carries the R2* of the
    fast-exchange component. *)
Theorem fxl_success_implies_nxl
    (r : compartment.t r_to_s.relax) (p : compartment.t fnum)
    (r_components : list r_to_s.relax) (p_components : list npval) :
  r_to_s.r_compartments_to_components_fxl r p
  = Ok (r_components, p_components) →
  ∃ c, r_components = [c]
       ∧ r_to_s.r_compartments_to_components_nxl r p
         = Ok ([ {| r_to_s.r1 := r_to_s.r1 (compartment.b r);
                    r_to_s.r2s := r_to_s.r2s c |};
                 {| r_to_s.r1 := r_to_s.r1 (compartment.e r);
                    r_to_s.r2s := r_to_s.r2s c |};
                 {| r_to_s.r1 := r_to_s.r1 (compartment.i r);
                    r_to_s.r2s := r_to_s.r2s c |} ],
               [ PyFloat (compartment.b p); PyFloat (compartment.e p);
                 PyFloat (compartment.i p) ]).
Proof.
  unfold r_to_s.r_compartments_to_components_fxl,
    r_to_s.r_compartments_to_components_nxl.
  destruct (r_to_s.weighted_rate p (compartment.map r_to_s.r1 r))
    as [r1_mean|]; [|done]. simpl_result.
  destruct (r_to_s.weighted_rate p (compartment.map r_to_s.r2s r))
    as [r2s_mean|]; [|done]. simpl_result.
  destruct (r_to_s.py_len r1_mean) as [n|]; [|done]. simpl_result.
  intros [= <- <-]. by eexists.
Qed.

Lemma fxl_success_implies_nxl_witness :
  ∃ r_components p_components m,
    r_to_s.r_compartments_to_components_fxl
      (compartment.mk
       {| r_to_s.r1 := NpArray [fz 1; fz 2]; r_to_s.r2s := NpArray [fz 0; fz 4] |}
       {| r_to_s.r1 := NpArray [fz 1; fz 2]; r_to_s.r2s := NpArray [fz 0; fz 4] |}
       {| r_to_s.r1 := NpArray [fz 1; fz 2]; r_to_s.r2s := NpArray [fz 0; fz 4] |})
      (compartment.mk (fq 1 4) (fq 1 4) (fq 1 2))
    = Ok (r_components, p_components)
    ∧ r_components = [m]
    ∧ r_to_s.r_compartments_to_components_nxl
        (compartment.mk
       {| r_to_s.r1 := NpArray [fz 1; fz 2]; r_to_s.r2s := NpArray [fz 0; fz 4] |}
       {| r_to_s.r1 := NpArray [fz 1; fz 2]; r_to_s.r2s := NpArray [fz 0; fz 4] |}
       {| r_to_s.r1 := NpArray [fz 1; fz 2]; r_to_s.r2s := NpArray [fz 0; fz 4] |})
        (compartment.mk (fq 1 4) (fq 1 4) (fq 1 2))
      = Ok ([ {| r_to_s.r1 := NpArray [fz 1; fz 2]; r_to_s.r2s := r_to_s.r2s m |};
              {| r_to_s.r1 := NpArray [fz 1; fz 2]; r_to_s.r2s := r_to_s.r2s m |};
              {| r_to_s.r1 := NpArray [fz 1; fz 2]; r_to_s.r2s := r_to_s.r2s m |} ],
            [ PyFloat (fq 1 4); PyFloat (fq 1 4); PyFloat (fq 1 2) ]).
Proof.
  edestruct (fxl_success_implies_nxl
               (compartment.mk
       {| r_to_s.r1 := NpArray [fz 1; fz 2]; r_to_s.r2s := NpArray [fz 0; fz 4] |}
       {| r_to_s.r1 := NpArray [fz 1; fz 2]; r_to_s.r2s := NpArray [fz 0; fz 4] |}
       {| r_to_s.r1 := NpArray [fz 1; fz 2]; r_to_s.r2s := NpArray [fz 0; fz 4] |})
               (compartment.mk (fq 1 4) (fq 1 4) (fq 1 2)))
    as (m & Hm & Hnxl); [reflexivity|].
  eexists _, _, m. split; [reflexivity|]. split; [exact Hm | exact Hnxl].
Defined.
